(** * The proving job broker (ProvingBroker)

    A shallow embedding of the class [ProvingBroker] and of the two
    comparators that order its work: the in-memory caches are finite maps,
    the in-progress table is an insertion-ordered JavaScript [Map], every
    asynchronous method is a function from the broker before the call to the
    broker after it together with the way the promise settles.  Methods are
    taken as atomic: what another call may do at an [await] is not part of
    this development. *)

From Stdlib Require Import ZArith List String Permutation Sorted.
From stdpp Require Import base decidable option list functions gmap strings fin_maps.

Open Scope Z_scope.

(** ** Data *)

(** Modelled from the spec: the enum [ProvingRequestType] of
    [@aztec/circuit-types] is declared outside the files at hand; its members
    are the twelve proof classes of the data model, which are also the twelve
    keys the broker gives to [queues]. *)
Inductive ProvingRequestType : Set :=
  | PUBLIC_VM
  | TUBE_PROOF
  | PRIVATE_KERNEL_EMPTY
  | PRIVATE_BASE_ROLLUP
  | PUBLIC_BASE_ROLLUP
  | MERGE_ROLLUP
  | ROOT_ROLLUP
  | BLOCK_MERGE_ROLLUP
  | BLOCK_ROOT_ROLLUP
  | EMPTY_BLOCK_ROOT_ROLLUP
  | BASE_PARITY
  | ROOT_PARITY.

#[global] Instance ProvingRequestType_eq_dec : EqDecision ProvingRequestType.
Proof. solve_decision. Defined.

(** [Object.values(ProvingRequestType).filter(x => typeof x === 'number')]. *)
Definition ProvingRequestType_values : list ProvingRequestType :=
  [ PUBLIC_VM; TUBE_PROOF; PRIVATE_KERNEL_EMPTY; PRIVATE_BASE_ROLLUP;
    PUBLIC_BASE_ROLLUP; MERGE_ROLLUP; ROOT_ROLLUP; BLOCK_MERGE_ROLLUP;
    BLOCK_ROOT_ROLLUP; EMPTY_BLOCK_ROOT_ROLLUP; BASE_PARITY; ROOT_PARITY ].

Abbreviation V2ProvingJobId := string.

(** Modelled from the spec: the record type [V2ProvingJob] is declared outside
    the files at hand; the broker reads [id], [type] and [blockNumber], the
    rest of the record is the producer's opaque payload. *)
Record V2ProvingJob : Set := mkJob {
  job_id : V2ProvingJobId;
  job_type : ProvingRequestType;
  blockNumber : Z;
  inputs : string
}.

#[global] Instance V2ProvingJob_eq_dec : EqDecision V2ProvingJob.
Proof. solve_decision. Defined.

(** [{ value } | { error }]. *)
Inductive V2ProvingJobResult : Set :=
  | ResultValue (value : string)
  | ResultError (error : string).

#[global] Instance V2ProvingJobResult_eq_dec : EqDecision V2ProvingJobResult.
Proof. solve_decision. Defined.

Inductive V2ProvingJobStatus : Set :=
  | StatusNotFound
  | StatusInQueue
  | StatusInProgress
  | StatusResolved (value : string)
  | StatusRejected (error : string).

(** A JavaScript [Error]; [String(err)] is [Error.prototype.toString]. *)
Record JsError : Set := mkError { err_name : string; err_message : string }.

Definition String_of_error (err : JsError) : string :=
  if decide (err_name err = EmptyString) then err_message err
  else if decide (err_message err = EmptyString) then err_name err
  else (err_name err ++ ": " ++ err_message err)%string.

Record InProgressMetadata : Set := mkMeta {
  meta_id : V2ProvingJobId;
  startedAt : Z;
  lastUpdatedAt : Z
}.

Record ProvingJobFilter : Set := mkFilter {
  allowList : option (list ProvingRequestType)
}.

(** ** The comparators *)

Definition provingJobComparator (a b : V2ProvingJob) : Z :=
  if blockNumber a <? blockNumber b then -1
  else if blockNumber a >? blockNumber b then 1
  else 0.

(** [Array.prototype.indexOf]: the first position of [x], [-1] when absent. *)
Fixpoint indexOf {A} `{EqDecision A} (l : list A) (x : A) : Z :=
  match l with
  | [] => -1
  | y :: l' =>
      if decide (y = x) then 0
      else let i := indexOf l' x in if i =? -1 then -1 else i + 1
  end.

Definition PROOF_TYPES_IN_PRIORITY_ORDER : list ProvingRequestType :=
  [ BLOCK_ROOT_ROLLUP; BLOCK_MERGE_ROLLUP; ROOT_ROLLUP; MERGE_ROLLUP;
    PUBLIC_BASE_ROLLUP; PRIVATE_BASE_ROLLUP; PUBLIC_VM; TUBE_PROOF;
    ROOT_PARITY; BASE_PARITY; EMPTY_BLOCK_ROOT_ROLLUP; PRIVATE_KERNEL_EMPTY ].

(** The body of [proofTypeComparator], over the priority array it reads. *)
Definition proofTypeComparatorOver {A} `{EqDecision A}
    (order : list A) (a b : A) : Z :=
  let indexOfA := indexOf order a in
  let indexOfB := indexOf order b in
  if indexOfA =? indexOfB then 0
  else if indexOfA =? -1 then 1
  else if indexOfB =? -1 then -1
  else if indexOfA <? indexOfB then -1
  else 1.

Definition proofTypeComparator (a b : ProvingRequestType) : Z :=
  proofTypeComparatorOver PROOF_TYPES_IN_PRIORITY_ORDER a b.

(** ** Sorted insertion, [Array.prototype.sort] and the priority queue *)

(** [x] goes in front of the first element it is strictly smaller than, so
    behind every element it compares equal to. *)
Fixpoint insertSorted {A} (cmp : A → A → Z) (x : A) (l : list A) : list A :=
  match l with
  | [] => [x]
  | y :: l' => if cmp x y <? 0 then x :: y :: l' else y :: insertSorted cmp x l'
  end.

(** [Array.prototype.sort(cmp)] is stable: elements that compare equal keep
    their order. *)
Definition Array_sort {A} (cmp : A → A → Z) (l : list A) : list A :=
  fold_left (fun acc x => insertSorted cmp x acc) l [].

(** Modelled from the spec: the class [PriorityMemoryQueue] of
    [@aztec/foundation/queue] is outside the files at hand.  It is a
    min-ordered queue keyed by (comparator ascending, insertion order
    ascending) with a push and a non-blocking pop that gives nothing on an
    empty queue; [put] does not look for the item among those already
    held. *)
Module PriorityMemoryQueue.

Abbreviation t A := (list A).

Definition empty {A} : t A := [].

Definition put {A} (cmp : A → A → Z) (item : A) (q : t A) : t A :=
  insertSorted cmp item q.

Definition getImmediate {A} (q : t A) : option A * t A :=
  match q with
  | [] => (None, [])
  | item :: q' => (Some item, q')
  end.

End PriorityMemoryQueue.

(** ** A JavaScript [Map] keyed by job id, in insertion order *)

Module JsMap.

Abbreviation t V := (list (V2ProvingJobId * V)).

Fixpoint get {V} (m : t V) (k : V2ProvingJobId) : option V :=
  match m with
  | [] => None
  | (k', v) :: m' => if decide (k' = k) then Some v else get m' k
  end.

Definition has {V} (m : t V) (k : V2ProvingJobId) : bool :=
  match get m k with Some _ => true | None => false end.

(** [set] on a key already present keeps the entry where it is. *)
Fixpoint set {V} (m : t V) (k : V2ProvingJobId) (v : V) : t V :=
  match m with
  | [] => [(k, v)]
  | (k', v') :: m' =>
      if decide (k' = k) then (k, v) :: m' else (k', v') :: set m' k v
  end.

Fixpoint delete {V} (m : t V) (k : V2ProvingJobId) : t V :=
  match m with
  | [] => []
  | (k', v') :: m' =>
      if decide (k' = k) then delete m' k else (k', v') :: delete m' k
  end.

Definition keys {V} (m : t V) : list V2ProvingJobId := map fst m.

End JsMap.

(** ** The database *)

(** A write the database has taken. *)
Inductive DatabaseWrite : Set :=
  | AddProvingJob (job : V2ProvingJob)
  | SetProvingJobResult (id : V2ProvingJobId) (value : string)
  | SetProvingJobError (id : V2ProvingJobId) (err : JsError)
  | DeleteProvingJobAndResult (id : V2ProvingJobId).

(** Modelled from the spec: the interface [ProvingBrokerDatabase] has no
    implementation among the files at hand.  It persists job records and
    terminal results by job id, deletes both at once, and enumerates what it
    holds; every operation either succeeds or fails as a whole.
    [db_journal] lists the writes that succeeded, latest first. *)
Record ProvingBrokerDatabase : Type := mkDatabase {
  db_jobs : gmap V2ProvingJobId V2ProvingJob;
  db_results : gmap V2ProvingJobId V2ProvingJobResult;
  db_journal : list DatabaseWrite
}.

Module Database.

Definition empty : ProvingBrokerDatabase :=
  {| db_jobs := ∅; db_results := ∅; db_journal := [] |}.

Definition addProvingJob (job : V2ProvingJob) (db : ProvingBrokerDatabase)
    : ProvingBrokerDatabase :=
  {| db_jobs := <[job_id job := job]> (db_jobs db);
     db_results := db_results db;
     db_journal := AddProvingJob job :: db_journal db |}.

Definition setProvingJobResult (id : V2ProvingJobId) (value : string)
    (db : ProvingBrokerDatabase) : ProvingBrokerDatabase :=
  {| db_jobs := db_jobs db;
     db_results := <[id := ResultValue value]> (db_results db);
     db_journal := SetProvingJobResult id value :: db_journal db |}.

Definition setProvingJobError (id : V2ProvingJobId) (err : JsError)
    (db : ProvingBrokerDatabase) : ProvingBrokerDatabase :=
  {| db_jobs := db_jobs db;
     db_results := <[id := ResultError (String_of_error err)]> (db_results db);
     db_journal := SetProvingJobError id err :: db_journal db |}.

Definition deleteProvingJobAndResult (id : V2ProvingJobId)
    (db : ProvingBrokerDatabase) : ProvingBrokerDatabase :=
  {| db_jobs := delete id (db_jobs db);
     db_results := delete id (db_results db);
     db_journal := DeleteProvingJobAndResult id :: db_journal db |}.

Definition allProvingJobs (db : ProvingBrokerDatabase)
    : list (V2ProvingJob * option V2ProvingJobResult) :=
  map (fun kv => (kv.2, db_results db !! job_id kv.2)) (map_to_list (db_jobs db)).

End Database.

(** ** The broker *)

Record ProvingBroker : Type := mkBroker {
  queues : ProvingRequestType → PriorityMemoryQueue.t V2ProvingJob;
  jobsCache : gmap V2ProvingJobId V2ProvingJob;
  resultsCache : gmap V2ProvingJobId V2ProvingJobResult;
  inProgress : JsMap.t InProgressMetadata;
  retries : gmap V2ProvingJobId Z;
  proofRequestTimeoutMs : Z;
  maxRetries : Z;
  database : ProvingBrokerDatabase
}.

(** [ProofRequestBrokerConfig]; an absent field takes the constructor's
    default. *)
Record ProofRequestBrokerConfig : Set := mkConfig {
  timeoutIntervalMs : option Z;
  jobTimeoutMs : option Z;
  cfg_maxRetries : option Z
}.

Definition defaultConfig : ProofRequestBrokerConfig :=
  {| timeoutIntervalMs := None; jobTimeoutMs := None; cfg_maxRetries := None |}.

(** How the promise of a method settles. *)
Inductive BrokerError : Set :=
  | AssertionError (message : string)
  | DatabaseError.

Inductive Settled (A : Type) : Type :=
  | Fulfilled (a : A)
  | Thrown (e : BrokerError).
Arguments Fulfilled {A} a.
Arguments Thrown {A} e.

(** The constructor. *)
Definition newProvingBroker (db : ProvingBrokerDatabase)
    (cfg : ProofRequestBrokerConfig) : ProvingBroker :=
  {| queues := fun _ => PriorityMemoryQueue.empty;
     jobsCache := ∅;
     resultsCache := ∅;
     inProgress := [];
     retries := ∅;
     proofRequestTimeoutMs := default 30000 (jobTimeoutMs cfg);
     maxRetries := default 3 (cfg_maxRetries cfg);
     database := db |}.

Definition with_queues (b : ProvingBroker) q : ProvingBroker :=
  mkBroker q (jobsCache b) (resultsCache b) (inProgress b) (retries b)
    (proofRequestTimeoutMs b) (maxRetries b) (database b).
Definition with_jobsCache (b : ProvingBroker) m : ProvingBroker :=
  mkBroker (queues b) m (resultsCache b) (inProgress b) (retries b)
    (proofRequestTimeoutMs b) (maxRetries b) (database b).
Definition with_resultsCache (b : ProvingBroker) m : ProvingBroker :=
  mkBroker (queues b) (jobsCache b) m (inProgress b) (retries b)
    (proofRequestTimeoutMs b) (maxRetries b) (database b).
Definition with_inProgress (b : ProvingBroker) m : ProvingBroker :=
  mkBroker (queues b) (jobsCache b) (resultsCache b) m (retries b)
    (proofRequestTimeoutMs b) (maxRetries b) (database b).
Definition with_retries (b : ProvingBroker) m : ProvingBroker :=
  mkBroker (queues b) (jobsCache b) (resultsCache b) (inProgress b) m
    (proofRequestTimeoutMs b) (maxRetries b) (database b).
Definition with_database (b : ProvingBroker) db : ProvingBroker :=
  mkBroker (queues b) (jobsCache b) (resultsCache b) (inProgress b) (retries b)
    (proofRequestTimeoutMs b) (maxRetries b) db.

Definition enqueueJobInternal (job : V2ProvingJob) (b : ProvingBroker)
    : ProvingBroker :=
  with_queues b
    (<[job_type job :=
         PriorityMemoryQueue.put provingJobComparator job (queues b (job_type job))]>
       (queues b)).

(** One turn of the loop of [start]. *)
Definition restore (b : ProvingBroker)
    (entry : V2ProvingJob * option V2ProvingJobResult) : ProvingBroker :=
  let '(item, result) := entry in
  let b := with_jobsCache b (<[job_id item := item]> (jobsCache b)) in
  match result with
  | Some result => with_resultsCache b (<[job_id item := result]> (resultsCache b))
  | None => enqueueJobInternal item b
  end.

Definition start (b : ProvingBroker) : ProvingBroker :=
  fold_left restore (Database.allProvingJobs (database b)) b.

(** The methods that write to the database take [dbOk]: whether the write
    they await succeeds. *)
Definition enqueueProvingJob (dbOk : bool) (job : V2ProvingJob)
    (b : ProvingBroker) : ProvingBroker * Settled unit :=
  match jobsCache b !! job_id job with
  | Some existing =>
      if decide (job = existing) then (b, Fulfilled tt)
      else (b, Thrown (AssertionError "Duplicate proving job ID"))
  | None =>
      if dbOk then
        let b := with_database b (Database.addProvingJob job (database b)) in
        let b := with_jobsCache b (<[job_id job := job]> (jobsCache b)) in
        (enqueueJobInternal job b, Fulfilled tt)
      else (b, Thrown DatabaseError)
  end.

Definition removeAndCancelProvingJob (dbOk : bool) (id : V2ProvingJobId)
    (b : ProvingBroker) : ProvingBroker * Settled unit :=
  if dbOk then
    let b := with_database b (Database.deleteProvingJobAndResult id (database b)) in
    let b := with_jobsCache b (delete id (jobsCache b)) in
    let b := with_resultsCache b (delete id (resultsCache b)) in
    let b := with_inProgress b (JsMap.delete (inProgress b) id) in
    let b := with_retries b (delete id (retries b)) in
    (b, Fulfilled tt)
  else (b, Thrown DatabaseError).

Definition getProvingJobStatus (id : V2ProvingJobId) (b : ProvingBroker)
    : V2ProvingJobStatus :=
  match resultsCache b !! id with
  | None =>
      match jobsCache b !! id with
      | None => StatusNotFound
      | Some _ =>
          if JsMap.has (inProgress b) id then StatusInProgress else StatusInQueue
      end
  | Some (ResultValue value) => StatusResolved value
  | Some (ResultError error) => StatusRejected error
  end.

(** The array [allowedProofs] as first built: a copy of the allow list when
    there is one (an empty array counts), every proof class otherwise. *)
Definition allowed (filter : ProvingJobFilter) : list ProvingRequestType :=
  match allowList filter with
  | Some l => l
  | None => ProvingRequestType_values
  end.

(** ... and after [allowedProofs.sort(proofTypeComparator)]. *)
Definition allowedProofs (filter : ProvingJobFilter) : list ProvingRequestType :=
  Array_sort proofTypeComparator (allowed filter).

(** The loop of [getProvingJob]; [now] is what [timeSource] reads. *)
Fixpoint getProvingJob_loop (now : Z) (allowed : list ProvingRequestType)
    (b : ProvingBroker) : ProvingBroker * option V2ProvingJob :=
  match allowed with
  | [] => (b, None)
  | proofType :: allowed' =>
      match PriorityMemoryQueue.getImmediate (queues b proofType) with
      | (Some item, queue') =>
          let b := with_queues b (<[proofType := queue']> (queues b)) in
          let b := with_inProgress b
            (JsMap.set (inProgress b) (job_id item)
               {| meta_id := job_id item; startedAt := now; lastUpdatedAt := now |}) in
          (b, Some item)
      | (None, _) => getProvingJob_loop now allowed' b
      end
  end.

Definition getProvingJob (now : Z) (filter : ProvingJobFilter)
    (b : ProvingBroker) : ProvingBroker * option V2ProvingJob :=
  getProvingJob_loop now (allowedProofs filter) b.

Definition reportProvingJobError (dbOk : bool) (id : V2ProvingJobId)
    (err : JsError) (retry : bool) (b : ProvingBroker)
    : ProvingBroker * Settled unit :=
  let info := JsMap.get (inProgress b) id in
  let item := jobsCache b !! id in
  let retries_ := default 0 (retries b !! id) in
  match item with
  | None => (b, Fulfilled tt)
  | Some item =>
      let b := match info with
               | None => b
               | Some _ => with_inProgress b (JsMap.delete (inProgress b) id)
               end in
      if retry && (retries_ + 1 <? maxRetries b) then
        let b := with_retries b (<[id := retries_ + 1]> (retries b)) in
        (enqueueJobInternal item b, Fulfilled tt)
      else if dbOk then
        let b := with_database b (Database.setProvingJobError id err (database b)) in
        (with_resultsCache b
           (<[id := ResultError (String_of_error err)]> (resultsCache b)),
         Fulfilled tt)
      else (b, Thrown DatabaseError)
  end.

Definition reportProvingJobProgress (now : Z) (id : V2ProvingJobId)
    (filter : option ProvingJobFilter) (b : ProvingBroker)
    : ProvingBroker * option V2ProvingJob :=
  match JsMap.get (inProgress b) id with
  | Some metadata =>
      (with_inProgress b
         (JsMap.set (inProgress b) id
            {| meta_id := meta_id metadata; startedAt := startedAt metadata;
               lastUpdatedAt := now |}),
       None)
  | None =>
      match filter with
      | Some filter => getProvingJob now filter b
      | None => (b, None)
      end
  end.

Definition reportProvingJobSuccess (dbOk : bool) (id : V2ProvingJobId)
    (value : string) (b : ProvingBroker) : ProvingBroker * Settled unit :=
  let info := JsMap.get (inProgress b) id in
  let item := jobsCache b !! id in
  match item with
  | None => (b, Fulfilled tt)
  | Some _ =>
      let b := match info with
               | None => b
               | Some _ => with_inProgress b (JsMap.delete (inProgress b) id)
               end in
      if dbOk then
        let b := with_database b (Database.setProvingJobResult id value (database b)) in
        (with_resultsCache b (<[id := ResultValue value]> (resultsCache b)),
         Fulfilled tt)
      else (b, Thrown DatabaseError)
  end.

(** One turn of the loop of [timeoutCheck]. *)
Definition timeoutCheck_entry (now : Z) (b : ProvingBroker)
    (entry : V2ProvingJobId * InProgressMetadata) : ProvingBroker :=
  let '(id, metadata) := entry in
  match jobsCache b !! id with
  | None => with_inProgress b (JsMap.delete (inProgress b) id)
  | Some item =>
      let elapsedSinceLastUpdate := now - lastUpdatedAt metadata in
      if elapsedSinceLastUpdate >=? proofRequestTimeoutMs b then
        enqueueJobInternal item
          (with_inProgress b (JsMap.delete (inProgress b) id))
      else b
  end.

(** The loop visits the entries the table holds when it starts: a turn
    deletes at most the entry it is visiting and adds none. *)
Definition timeoutCheck (now : Z) (b : ProvingBroker) : ProvingBroker :=
  fold_left (timeoutCheck_entry now) (inProgress b) b.

(** ** Calls and runs *)

(** The operations of the broker's contract, and the periodic sweep. *)
Inductive BrokerCall : Set :=
  | Enqueue (dbOk : bool) (job : V2ProvingJob)
  | Cancel (dbOk : bool) (id : V2ProvingJobId)
  | Status (id : V2ProvingJobId)
  | Acquire (now : Z) (filter : ProvingJobFilter)
  | Heartbeat (now : Z) (id : V2ProvingJobId) (filter : option ProvingJobFilter)
  | ReportSuccess (dbOk : bool) (id : V2ProvingJobId) (value : string)
  | ReportFailure (dbOk : bool) (id : V2ProvingJobId) (err : JsError) (retry : bool)
  | Sweep (now : Z).

(** The broker after a call has completed. *)
Definition call (c : BrokerCall) (b : ProvingBroker) : ProvingBroker :=
  match c with
  | Enqueue dbOk job => (enqueueProvingJob dbOk job b).1
  | Cancel dbOk id => (removeAndCancelProvingJob dbOk id b).1
  | Status id => b
  | Acquire now filter => (getProvingJob now filter b).1
  | Heartbeat now id filter => (reportProvingJobProgress now id filter b).1
  | ReportSuccess dbOk id value => (reportProvingJobSuccess dbOk id value b).1
  | ReportFailure dbOk id err retry => (reportProvingJobError dbOk id err retry b).1
  | Sweep now => timeoutCheck now b
  end.

Definition run (calls : list BrokerCall) (b : ProvingBroker) : ProvingBroker :=
  fold_left (fun b c => call c b) calls b.

(** A database is well formed when it files every job under the job's id,
    which is all [addProvingJob] ever does. *)
Definition db_wf (db : ProvingBrokerDatabase) : Prop :=
  ∀ k j, db_jobs db !! k = Some j → job_id j = k.

(** The brokers a program can see: a fresh broker, started, then called. *)
Definition reachable (b : ProvingBroker) : Prop :=
  ∃ db cfg calls, db_wf db ∧ b = run calls (start (newProvingBroker db cfg)).

(** Every queued job, class by class, and the ids queued. *)
Definition queued (b : ProvingBroker) : list V2ProvingJob :=
  flat_map (queues b) ProvingRequestType_values.

Definition queued_ids (b : ProvingBroker) : list V2ProvingJobId :=
  map job_id (queued b).

Definition leased (b : ProvingBroker) (id : V2ProvingJobId) : Prop :=
  is_Some (JsMap.get (inProgress b) id).

(** ** Scenario data *)

Definition job1_vm : V2ProvingJob := mkJob "1" PUBLIC_VM 5 "a".
Definition job2_block_root : V2ProvingJob := mkJob "2" BLOCK_ROOT_ROLLUP 9 "b".
Definition job1_merge : V2ProvingJob := mkJob "1" MERGE_ROLLUP 7 "a".
Definition job2_merge : V2ProvingJob := mkJob "2" MERGE_ROLLUP 3 "b".
Definition all_classes : ProvingJobFilter := mkFilter None.
Definition test_error : JsError := mkError "Error" "test error".
Definition fresh : ProvingBroker := start (newProvingBroker Database.empty defaultConfig).

(** * Properties *)

(** ** Sorted insertion *)

Section InsertSorted.
Context {A : Type} (cmp : A → A → Z).

Lemma insertSorted_split (x : A) (l : list A) :
  ∃ l1 l2, l = l1 ++ l2 ∧ insertSorted cmp x l = l1 ++ x :: l2
    ∧ Forall (fun y => 0 ≤ cmp x y) l1
    ∧ match l2 with [] => True | y :: _ => cmp x y < 0 end.
Proof.
  induction l as [|y l IH]; simpl.
  - exists [], []. repeat split; auto.
  - destruct (Z.ltb_spec (cmp x y) 0) as [Hlt|Hge].
    + exists [], (y :: l). repeat split; auto.
    + destruct IH as (l1 & l2 & -> & Hins & Hl1 & Hl2).
      exists (y :: l1), l2. rewrite Hins. repeat split; auto.
Qed.

Lemma insertSorted_perm (x : A) (l : list A) : insertSorted cmp x l ≡ₚ x :: l.
Proof.
  destruct (insertSorted_split x l) as (l1 & l2 & -> & -> & _).
  symmetry. apply Permutation_middle.
Qed.

Lemma Array_sort_perm (l : list A) : Array_sort cmp l ≡ₚ l.
Proof.
  unfold Array_sort.
  assert (H : ∀ acc, fold_left (fun acc x => insertSorted cmp x acc) l acc ≡ₚ l ++ acc).
  { induction l as [|x l IH]; intros acc; simpl; [reflexivity|].
    rewrite IH, insertSorted_perm. symmetry. apply Permutation_middle. }
  rewrite H. by rewrite app_nil_r.
Qed.

End InsertSorted.

(** A comparator that orders by an integer key keeps lists in key order. *)
Section KeyOrder.
Context {A : Type} (cmp : A → A → Z) (key : A → Z).
Hypothesis cmp_lt : ∀ x y, cmp x y < 0 ↔ key x < key y.

Definition key_le (x y : A) : Prop := key x ≤ key y.

Lemma insertSorted_sorted (x : A) (l : list A) :
  StronglySorted key_le l → StronglySorted key_le (insertSorted cmp x l).
Proof.
  induction 1 as [|y l Hl IH Hy]; simpl.
  - repeat constructor.
  - destruct (Z.ltb_spec (cmp x y) 0) as [Hlt|Hge].
    + apply cmp_lt in Hlt.
      constructor; [by constructor|].
      constructor; [unfold key_le; lia|].
      eapply Forall_impl; [exact Hy|]. unfold key_le. intros; simpl in *; lia.
    + assert (Hyx : key_le y x).
      { unfold key_le. destruct (Z.lt_ge_cases (key x) (key y)) as [Hc|Hc];
          [apply cmp_lt in Hc; lia | lia]. }
      constructor; [exact IH|].
      rewrite (insertSorted_perm cmp x l). by constructor.
Qed.

Lemma insertSorted_behind (x : A) (l : list A) :
  StronglySorted key_le l →
  ∃ l1 l2, l = l1 ++ l2 ∧ insertSorted cmp x l = l1 ++ x :: l2
    ∧ Forall (fun y => key y ≤ key x) l1
    ∧ Forall (fun y => key x < key y) l2.
Proof.
  intros Hl. destruct (insertSorted_split cmp x l) as (l1 & l2 & -> & Hins & Hl1 & Hl2).
  exists l1, l2. repeat split; auto.
  - eapply Forall_impl; [exact Hl1|]. intros y Hy. simpl in Hy.
    destruct (Z.lt_ge_cases (key x) (key y)) as [Hc|Hc]; [apply cmp_lt in Hc|]; lia.
  - clear Hins Hl1. induction l1 as [|a l1 IH]; simpl in Hl.
    + destruct l2 as [|y l2]; [constructor|]. apply cmp_lt in Hl2.
      inversion Hl as [|? ? _ Hy]; subst. constructor; [done|].
      eapply Forall_impl; [exact Hy|]. unfold key_le. intros; simpl in *; lia.
    + inversion Hl; subst. auto.
Qed.

Lemma Array_sort_sorted (l : list A) : StronglySorted key_le (Array_sort cmp l).
Proof.
  unfold Array_sort.
  assert (H : ∀ acc, StronglySorted key_le acc →
    StronglySorted key_le (fold_left (fun acc x => insertSorted cmp x acc) l acc)).
  { induction l as [|x l IH]; intros acc Hacc; simpl; [done|].
    by apply IH, insertSorted_sorted. }
  apply H. constructor.
Qed.

Lemma sorted_middle (l1 l2 : list A) (x : A) :
  StronglySorted key_le (l1 ++ x :: l2) → Forall (key_le x) l2.
Proof.
  induction l1 as [|a l1 IH]; simpl; intros Hs; inversion Hs; subst; auto.
Qed.

End KeyOrder.

(** ** The in-progress table *)

Module JsMapFacts.
Import JsMap.

Section Facts.
Context {V : Type}.
Implicit Types (m : JsMap.t V) (k : V2ProvingJobId) (v : V).

Lemma get_set_eq m k v : get (set m k v) k = Some v.
Proof.
  induction m as [|[k' v'] m IH]; simpl; repeat case_decide; simpl;
    repeat case_decide; congruence.
Qed.

Lemma get_set_ne m k k' v : k ≠ k' → get (set m k v) k' = get m k'.
Proof.
  intros Hne. induction m as [|[k0 v0] m IH]; simpl; repeat case_decide; simpl;
    repeat case_decide; congruence.
Qed.

Lemma delete_filter m k : delete m k = filter (fun kv => kv.1 ≠ k) m.
Proof.
  induction m as [|[k' v'] m IH]; [done|].
  rewrite filter_cons. cbn [delete fst]. rewrite IH.
  destruct (decide (k' = k)) as [Heq|Hne].
  - rewrite decide_False; [done|]. intros Hne. by apply Hne.
  - by rewrite decide_True.
Qed.

Lemma get_delete_eq m k : get (delete m k) k = None.
Proof.
  induction m as [|[k' v'] m IH]; simpl; repeat case_decide; simpl;
    repeat case_decide; congruence.
Qed.

Lemma get_delete_ne m k k' : k ≠ k' → get (delete m k) k' = get m k'.
Proof.
  intros Hne. induction m as [|[k0 v0] m IH]; simpl; repeat case_decide; simpl;
    repeat case_decide; congruence.
Qed.

Lemma get_Some_elem m k v : get m k = Some v → (k, v) ∈ m.
Proof.
  induction m as [|[k' v'] m IH]; simpl; [done|].
  case_decide; intros Hget.
  - injection Hget as <-. subst. left.
  - right. auto.
Qed.

Lemma elem_keys_get m k : k ∈ keys m ↔ is_Some (get m k).
Proof.
  unfold keys. induction m as [|[k' v'] m IH]; simpl.
  - split; [by intros ?%elem_of_nil | by intros [? ?]].
  - rewrite elem_of_cons, IH. case_decide; subst.
    + split; eauto.
    + split; [intros [?|?]; congruence || done | auto].
Qed.

Lemma get_elem_NoDup m k v : NoDup (keys m) → (k, v) ∈ m → get m k = Some v.
Proof.
  unfold keys. induction m as [|[k' v'] m IH]; simpl.
  - by intros _ ?%elem_of_nil.
  - intros [Hk Hm]%NoDup_cons. rewrite elem_of_cons. intros [Heq|Hin].
    + injection Heq as -> ->. by rewrite decide_True.
    + case_decide; subst; [|auto].
      destruct Hk. apply list_elem_of_fmap. by exists (k, v).
Qed.

Lemma keys_set m k v :
  (keys (set m k v) = keys m) ∨ ((k ∉ keys m) ∧ keys (set m k v) = keys m ++ [k]).
Proof.
  unfold keys. induction m as [|[k' v'] m IH]; simpl.
  - right. split; [apply not_elem_of_nil | done].
  - case_decide; subst; simpl; [by left|].
    destruct IH as [->|[Hk ->]]; [by left|].
    right. split; [|done]. rewrite elem_of_cons. intros [?|?]; congruence.
Qed.

Lemma NoDup_keys_set m k v : NoDup (keys m) → NoDup (keys (set m k v)).
Proof.
  intros Hm. destruct (keys_set m k v) as [->|[Hk ->]]; [done|].
  apply NoDup_app. repeat split; [done| |apply NoDup_singleton].
  intros x Hx ->%list_elem_of_singleton. done.
Qed.

Lemma NoDup_keys_delete m k : NoDup (keys m) → NoDup (keys (delete m k)).
Proof.
  unfold keys. induction m as [|[k' v'] m IH]; simpl; [done|].
  intros [Hk Hm]%NoDup_cons. case_decide; simpl; [auto|].
  apply NoDup_cons. split; [|auto].
  intros Hin. apply Hk.
  change (k' ∈ keys (delete m k)) in Hin. change (k' ∈ keys m).
  apply elem_keys_get in Hin. apply elem_keys_get.
  by rewrite get_delete_ne in Hin.
Qed.

End Facts.
End JsMapFacts.

(** ** The queues *)

Lemma ProvingRequestType_values_complete (t : ProvingRequestType) :
  t ∈ ProvingRequestType_values.
Proof. destruct t; unfold ProvingRequestType_values; set_solver. Qed.

Lemma ProvingRequestType_values_NoDup : NoDup ProvingRequestType_values.
Proof. compute_done. Qed.

Lemma flat_map_fn_insert {A B} `{EqDecision A} (f : A → list B) (t : A)
    (q : list B) (l : list A) :
  NoDup l → t ∈ l →
  ∃ rest, flat_map f l ≡ₚ f t ++ rest ∧ flat_map (<[t := q]> f) l ≡ₚ q ++ rest.
Proof.
  induction l as [|a l IH]; [by intros _ ?%elem_of_nil|].
  intros [Ha Hl]%NoDup_cons Hin. simpl.
  destruct (decide (a = t)) as [->|Hne].
  - exists (flat_map f l). rewrite fn_lookup_insert. split; [done|].
    apply Permutation_app_head.
    assert (Heq : ∀ x, x ∈ l → <[t:=q]> f x = f x).
    { intros x Hx. apply fn_lookup_insert_ne. intros ->. done. }
    clear IH Hin Hl. induction l as [|x l IH]; simpl; [done|].
    rewrite Heq by left. rewrite IH; [done| |].
    + intros Ht. apply Ha. by right.
    + intros y Hy. apply Heq. by right.
  - apply elem_of_cons in Hin as [?|Hin]; [congruence|].
    destruct (IH Hl Hin) as (rest & H1 & H2).
    exists (f a ++ rest). rewrite fn_lookup_insert_ne by done.
    rewrite H1, H2. split.
    + rewrite !app_assoc. apply Permutation_app_tail, Permutation_app_comm.
    + rewrite !app_assoc. apply Permutation_app_tail, Permutation_app_comm.
Qed.

Lemma queued_with_queues (b : ProvingBroker) (t : ProvingRequestType)
    (q : list V2ProvingJob) :
  ∃ rest, queued b ≡ₚ queues b t ++ rest
    ∧ queued (with_queues b (<[t := q]> (queues b))) ≡ₚ q ++ rest.
Proof.
  apply flat_map_fn_insert.
  - apply ProvingRequestType_values_NoDup.
  - apply ProvingRequestType_values_complete.
Qed.

Lemma queued_enqueueJobInternal (job : V2ProvingJob) (b : ProvingBroker) :
  queued (enqueueJobInternal job b) ≡ₚ job :: queued b.
Proof.
  unfold enqueueJobInternal.
  destruct (queued_with_queues b (job_type job)
    (PriorityMemoryQueue.put provingJobComparator job (queues b (job_type job))))
    as (rest & H1 & H2).
  rewrite H2, H1. unfold PriorityMemoryQueue.put.
  by rewrite insertSorted_perm.
Qed.

Lemma queued_pop (b : ProvingBroker) (t : ProvingRequestType)
    (item : V2ProvingJob) (q : list V2ProvingJob) :
  queues b t = item :: q →
  queued b ≡ₚ item :: queued (with_queues b (<[t := q]> (queues b))).
Proof.
  intros Hq. destruct (queued_with_queues b t q) as (rest & H1 & H2).
  rewrite H2, H1, Hq. done.
Qed.

Lemma elem_of_queued (b : ProvingBroker) (j : V2ProvingJob) :
  j ∈ queued b ↔ ∃ t, j ∈ queues b t.
Proof.
  unfold queued. rewrite list_elem_of_In, in_flat_map. split.
  - intros (t & _ & Hj). exists t. by apply list_elem_of_In.
  - intros (t & Hj). exists t. split; [|by apply list_elem_of_In].
    apply list_elem_of_In, ProvingRequestType_values_complete.
Qed.

(** ** Dispatch *)

(** What [getProvingJob] leaves behind when it hands out [item], taken from
    the queue of [proofType] whose remainder is [queue']. *)
Definition dispatched (now : Z) (proofType : ProvingRequestType)
    (item : V2ProvingJob) (queue' : list V2ProvingJob) (b : ProvingBroker)
    : ProvingBroker :=
  with_inProgress (with_queues b (<[proofType := queue']> (queues b)))
    (JsMap.set (inProgress b) (job_id item)
       {| meta_id := job_id item; startedAt := now; lastUpdatedAt := now |}).

Lemma getProvingJob_loop_Some now allowed b b' item :
  getProvingJob_loop now allowed b = (b', Some item) →
  ∃ pre proofType post queue',
    allowed = pre ++ proofType :: post
    ∧ Forall (fun t => queues b t = []) pre
    ∧ queues b proofType = item :: queue'
    ∧ b' = dispatched now proofType item queue' b.
Proof.
  induction allowed as [|t allowed IH]; simpl; [congruence|].
  destruct (queues b t) as [|j q] eqn:Hq; simpl.
  - intros (pre & t' & post & q' & -> & Hpre & Hq' & ->)%IH.
    exists (t :: pre), t', post, q'. repeat split; auto.
  - intros [= <- <-]. exists [], t, allowed, q. repeat split; auto.
Qed.

Lemma getProvingJob_loop_None now allowed b b' :
  getProvingJob_loop now allowed b = (b', None) →
  b' = b ∧ Forall (fun t => queues b t = []) allowed.
Proof.
  induction allowed as [|t allowed IH]; simpl.
  - intros [= <-]. auto.
  - destruct (queues b t) as [|j q] eqn:Hq; simpl; [|congruence].
    intros [-> Hall]%IH. auto.
Qed.

Lemma getProvingJob_loop_nonempty now allowed b t :
  t ∈ allowed → queues b t ≠ [] →
  ∃ item, (getProvingJob_loop now allowed b).2 = Some item.
Proof.
  intros Hin Hne.
  destruct (getProvingJob_loop now allowed b) as [b' [item|]] eqn:Hloop; [eauto|].
  apply getProvingJob_loop_None in Hloop as [_ Hall].
  rewrite Forall_forall in Hall. destruct Hne. by apply Hall.
Qed.

(** ** Admission *)

(** C8. Enqueueing the same record a second time changes nothing in the
    broker or in the database and writes nothing, whether or not the database
    could be written to; enqueueing a record whose id is indexed with other
    contents throws "Duplicate proving job ID" and changes nothing. *)
Theorem enqueue_twice_as_once (b : ProvingBroker) (job : V2ProvingJob)
    (dbOk1 dbOk2 : bool) :
  let once := enqueueProvingJob dbOk1 job b in
  (once.2 = Fulfilled tt →
     enqueueProvingJob dbOk2 job once.1 = (once.1, Fulfilled tt))
  ∧ (∀ existing, jobsCache b !! job_id job = Some existing → existing ≠ job →
       once = (b, Thrown (AssertionError "Duplicate proving job ID"))).
Proof.
  unfold enqueueProvingJob. split.
  - destruct (jobsCache b !! job_id job) as [existing|] eqn:Hjob.
    + case_decide as Heq; simpl; [|congruence]. intros _.
      rewrite Hjob. by rewrite decide_True.
    + destruct dbOk1; simpl; [|congruence]. intros _.
      rewrite lookup_insert_eq. by rewrite decide_True.
  - intros existing -> Hne. rewrite decide_False; [done|congruence].
Qed.

Lemma enqueue_twice_as_once_witness :
  let b := run [Enqueue true job1_vm] fresh in
  enqueueProvingJob false job1_vm b = (b, Fulfilled tt)
  ∧ enqueueProvingJob true job1_merge b
    = (b, Thrown (AssertionError "Duplicate proving job ID")).
Proof.
  split.
  - apply (enqueue_twice_as_once fresh job1_vm true false). reflexivity.
  - apply (enqueue_twice_as_once (run [Enqueue true job1_vm] fresh) job1_merge true true)
      with (existing := job1_vm); [vm_compute; reflexivity | discriminate].
Defined.

(** ** Cancellation *)

(** C2, as the code has it.  [removeAndCancelProvingJob] awaits the database
    first.  When the delete succeeds the id leaves the database, the job and
    result caches, the in-progress table and the retry counts, and the queues
    stay as they were; when the delete fails the call throws and the broker
    is as before. *)
Theorem cancel_database_first (b : ProvingBroker) (id : V2ProvingJobId) :
  (let b' := (removeAndCancelProvingJob true id b).1 in
   jobsCache b' !! id = None
   ∧ resultsCache b' !! id = None
   ∧ JsMap.get (inProgress b') id = None
   ∧ retries b' !! id = None
   ∧ db_jobs (database b') !! id = None
   ∧ db_results (database b') !! id = None
   ∧ queues b' = queues b)
  ∧ removeAndCancelProvingJob false id b = (b, Thrown DatabaseError).
Proof.
  split; [|reflexivity]. simpl.
  rewrite !lookup_delete_eq, JsMapFacts.get_delete_eq. auto 10.
Qed.

(** C2 fails as stated: a queued job that is cancelled stays in its queue,
    and a cancel whose database delete fails removes nothing from memory. *)
Lemma cancel_counterexample :
  let b := run [Enqueue true job1_vm] fresh in
  queues (removeAndCancelProvingJob true "1" b).1 PUBLIC_VM = [job1_vm]
  ∧ jobsCache (removeAndCancelProvingJob false "1" b).1 !! "1"%string
    = Some job1_vm.
Proof. split; vm_compute; reflexivity. Qed.

Lemma getProvingJob_loop_empty now allowed_ b :
  (∀ t, t ∈ allowed_ → queues b t = []) →
  getProvingJob_loop now allowed_ b = (b, None).
Proof.
  induction allowed_ as [|t allowed_ IH]; intros Hall; simpl; [done|].
  rewrite (Hall t) by left. simpl. apply IH. intros t' Ht'. apply Hall. by right.
Qed.

Lemma priority_order_complete (t : ProvingRequestType) :
  t ∈ PROOF_TYPES_IN_PRIORITY_ORDER.
Proof.
  destruct t; unfold PROOF_TYPES_IN_PRIORITY_ORDER;
    repeat first [apply list_elem_of_here | apply list_elem_of_further].
Qed.

(** C10. An allow list that is there but empty gives no job and changes
    nothing; with no allow list every class is tried, in priority order, and
    a job is handed out as soon as one is queued.  An allow list that is
    there is taken as it is, empty or not: only the queues of the classes it
    names are tried, so nothing is handed out and nothing changes when those
    are empty, whatever the other queues hold, and a job is handed out as
    soon as one of them holds one. *)
Theorem acquire_empty_allow_list :
  (∀ now b, getProvingJob now (mkFilter (Some [])) b = (b, None))
  ∧ allowedProofs (mkFilter (Some [])) = []
  ∧ allowedProofs (mkFilter None) = PROOF_TYPES_IN_PRIORITY_ORDER
  ∧ (∀ now b t, queues b t ≠ [] →
       ∃ item, (getProvingJob now (mkFilter None) b).2 = Some item)
  ∧ (∀ l, allowed (mkFilter (Some l)) = l)
  ∧ (∀ l, allowedProofs (mkFilter (Some l)) ≡ₚ l)
  ∧ (∀ now b l, (∀ t, t ∈ l → queues b t = []) →
       getProvingJob now (mkFilter (Some l)) b = (b, None))
  ∧ (∀ now b l t, t ∈ l → queues b t ≠ [] →
       ∃ item, (getProvingJob now (mkFilter (Some l)) b).2 = Some item).
Proof.
  split; [reflexivity|]. split; [reflexivity|].
  assert (Hall : allowedProofs (mkFilter None) = PROOF_TYPES_IN_PRIORITY_ORDER)
    by (vm_compute; reflexivity).
  split; [exact Hall|].
  assert (Hperm : ∀ l, allowedProofs (mkFilter (Some l)) ≡ₚ l)
    by (intros l; apply Array_sort_perm).
  split; [|split; [reflexivity|split; [exact Hperm|split]]].
  - intros now b t Hne. unfold getProvingJob. rewrite Hall.
    apply getProvingJob_loop_nonempty with t; [|done].
    apply priority_order_complete.
  - intros now b l Hempty. unfold getProvingJob.
    apply getProvingJob_loop_empty. intros t Ht. apply Hempty. by rewrite <- (Hperm l).
  - intros now b l t Ht Hne. unfold getProvingJob.
    apply getProvingJob_loop_nonempty with t; [|done]. by rewrite (Hperm l).
Qed.

Lemma acquire_empty_allow_list_witness :
  let b := run [Enqueue true job1_vm] fresh in
  getProvingJob 0 (mkFilter (Some [])) b = (b, None)
  ∧ (∃ item, (getProvingJob 0 (mkFilter None) b).2 = Some item)
  ∧ getProvingJob 0 (mkFilter (Some [BLOCK_ROOT_ROLLUP])) b = (b, None)
  ∧ ∃ item, (getProvingJob 0 (mkFilter (Some [TUBE_PROOF; PUBLIC_VM])) b).2 = Some item.
Proof.
  destruct acquire_empty_allow_list
    as (Hempty & _ & _ & Hnone & _ & _ & Hsome_empty & Hsome).
  split; [apply Hempty|]. split; [|split].
  - apply (Hnone 0 (run [Enqueue true job1_vm] fresh) PUBLIC_VM).
    vm_compute. discriminate.
  - apply (Hsome_empty 0 (run [Enqueue true job1_vm] fresh) [BLOCK_ROOT_ROLLUP]).
    intros t ->%list_elem_of_singleton. vm_compute. reflexivity.
  - apply (Hsome 0 (run [Enqueue true job1_vm] fresh) [TUBE_PROOF; PUBLIC_VM] PUBLIC_VM).
    + right. left.
    + vm_compute. discriminate.
Defined.

(** ** Invariants of the reachable brokers *)

Abbreviation epoch_le := (key_le blockNumber).

Lemma provingJobComparator_lt (a b : V2ProvingJob) :
  provingJobComparator a b < 0 ↔ blockNumber a < blockNumber b.
Proof.
  unfold provingJobComparator.
  destruct (Z.ltb_spec (blockNumber a) (blockNumber b));
    destruct (Z.gtb_spec (blockNumber a) (blockNumber b)); lia.
Qed.

Lemma put_sorted (job : V2ProvingJob) (q : list V2ProvingJob) :
  StronglySorted epoch_le q →
  StronglySorted epoch_le (PriorityMemoryQueue.put provingJobComparator job q).
Proof. apply insertSorted_sorted, provingJobComparator_lt. Qed.

(** Results belong to indexed jobs, jobs are indexed under their own id, the
    in-progress table holds a key once, and every queue is in epoch order and
    holds jobs of its own class only. *)
Record broker_inv (b : ProvingBroker) : Prop := mkInv {
  results_indexed :
    ∀ id r, resultsCache b !! id = Some r → is_Some (jobsCache b !! id);
  jobs_keyed : ∀ id j, jobsCache b !! id = Some j → job_id j = id;
  leases_unique : NoDup (JsMap.keys (inProgress b));
  queues_ordered :
    ∀ t, StronglySorted epoch_le (queues b t)
         ∧ Forall (fun j => job_type j = t) (queues b t)
}.

Lemma inv_enqueueJobInternal job b :
  broker_inv b → broker_inv (enqueueJobInternal job b).
Proof.
  intros [H1 H2 H3 H4]. split; simpl; auto.
  intros t. destruct (decide (job_type job = t)) as [<-|Hne].
  - rewrite fn_lookup_insert. destruct (H4 (job_type job)) as [Hs Ht]. split.
    + by apply put_sorted.
    + unfold PriorityMemoryQueue.put. rewrite insertSorted_perm. by constructor.
  - rewrite fn_lookup_insert_ne by done. apply H4.
Qed.

Lemma inv_delete_lease id b :
  broker_inv b → broker_inv (with_inProgress b (JsMap.delete (inProgress b) id)).
Proof.
  intros [H1 H2 H3 H4]. split; simpl; auto.
  by apply JsMapFacts.NoDup_keys_delete.
Qed.

Lemma inv_set_lease id meta b :
  broker_inv b → broker_inv (with_inProgress b (JsMap.set (inProgress b) id meta)).
Proof.
  intros [H1 H2 H3 H4]. split; simpl; auto.
  by apply JsMapFacts.NoDup_keys_set.
Qed.

Lemma inv_dispatched now t item q b :
  queues b t = item :: q → broker_inv b → broker_inv (dispatched now t item q b).
Proof.
  intros Hq [H1 H2 H3 H4]. split; simpl; auto.
  - by apply JsMapFacts.NoDup_keys_set.
  - intros t'. destruct (decide (t = t')) as [<-|Hne].
    + rewrite fn_lookup_insert. destruct (H4 t) as [Hs Ht]. rewrite Hq in Hs, Ht.
      split; [by inversion Hs | by inversion Ht].
    + rewrite fn_lookup_insert_ne by done. apply H4.
Qed.

Lemma inv_getProvingJob now filter b :
  broker_inv b → broker_inv (getProvingJob now filter b).1.
Proof.
  intros Hb. unfold getProvingJob.
  destruct (getProvingJob_loop now (allowedProofs filter) b) as [b' [item|]] eqn:Hloop.
  - apply getProvingJob_loop_Some in Hloop as (pre & t & post & q & _ & _ & Hq & ->).
    by apply inv_dispatched.
  - by apply getProvingJob_loop_None in Hloop as [-> _].
Qed.

Lemma inv_set_result id r b :
  is_Some (jobsCache b !! id) →
  broker_inv b → broker_inv (with_resultsCache b (<[id := r]> (resultsCache b))).
Proof.
  intros Hid [H1 H2 H3 H4]. split; simpl; auto.
  intros id' r'. destruct (decide (id = id')) as [<-|Hne].
  - done.
  - rewrite lookup_insert_ne by done. apply H1.
Qed.

Lemma inv_set_job job b :
  broker_inv b → broker_inv (with_jobsCache b (<[job_id job := job]> (jobsCache b))).
Proof.
  intros [H1 H2 H3 H4]. split; simpl; auto.
  - intros id r Hr. destruct (decide (job_id job = id)) as [<-|Hne].
    + rewrite lookup_insert_eq. eauto.
    + rewrite lookup_insert_ne by done. eauto.
  - intros id j. destruct (decide (job_id job = id)) as [<-|Hne].
    + rewrite lookup_insert_eq. congruence.
    + rewrite lookup_insert_ne by done. eauto.
Qed.

Lemma inv_with_database db b : broker_inv b → broker_inv (with_database b db).
Proof. intros [H1 H2 H3 H4]. split; simpl; auto. Qed.

Lemma inv_with_retries r b : broker_inv b → broker_inv (with_retries b r).
Proof. intros [H1 H2 H3 H4]. split; simpl; auto. Qed.

Lemma inv_timeoutCheck now b : broker_inv b → broker_inv (timeoutCheck now b).
Proof.
  unfold timeoutCheck. generalize (inProgress b) at 1. intros entries.
  revert b. induction entries as [|[id meta] entries IH]; intros b Hb; simpl; [done|].
  apply IH. destruct (jobsCache b !! id); [case_match|];
    auto using inv_enqueueJobInternal, inv_delete_lease.
Qed.

Lemma inv_cancel dbOk id b :
  broker_inv b → broker_inv (removeAndCancelProvingJob dbOk id b).1.
Proof.
  intros Hb. destruct dbOk; [|done]. destruct Hb as [H1 H2 H3 H4].
  split; simpl; auto.
  - intros id' r. destruct (decide (id = id')) as [<-|Hne].
    + by rewrite lookup_delete_eq.
    + rewrite !lookup_delete_ne by done. apply H1.
  - intros id' j. destruct (decide (id = id')) as [<-|Hne].
    + by rewrite lookup_delete_eq.
    + rewrite !lookup_delete_ne by done. apply H2.
  - by apply JsMapFacts.NoDup_keys_delete.
Qed.

Lemma inv_call c b : broker_inv b → broker_inv (call c b).
Proof.
  intros Hb. destruct c as [dbOk job|dbOk id|id|now filter|now id filter
                            |dbOk id value|dbOk id err retry|now]; simpl.
  - unfold enqueueProvingJob.
    destruct (jobsCache b !! job_id job); [by case_decide|].
    destruct dbOk; [|done]. cbn [fst].
    by apply inv_enqueueJobInternal, inv_set_job, inv_with_database.
  - by apply inv_cancel.
  - done.
  - by apply inv_getProvingJob.
  - unfold reportProvingJobProgress.
    destruct (JsMap.get (inProgress b) id); simpl; [by apply inv_set_lease|].
    destruct filter; [by apply inv_getProvingJob|done].
  - unfold reportProvingJobSuccess.
    destruct (jobsCache b !! id) as [item|] eqn:Hitem; [|done].
    set (b1 := match JsMap.get (inProgress b) id with Some _ => _ | None => b end).
    assert (Hb1 : broker_inv b1) by (subst b1; case_match; auto using inv_delete_lease).
    assert (Hj1 : jobsCache b1 = jobsCache b) by (subst b1; by case_match).
    clearbody b1. destruct dbOk; cbn [fst]; [|done].
    apply inv_set_result; [|by apply inv_with_database].
    simpl. rewrite Hj1, Hitem. eauto.
  - unfold reportProvingJobError.
    destruct (jobsCache b !! id) as [item|] eqn:Hitem; [|done].
    set (b1 := match JsMap.get (inProgress b) id with Some _ => _ | None => b end).
    assert (Hb1 : broker_inv b1) by (subst b1; case_match; auto using inv_delete_lease).
    assert (Hj1 : jobsCache b1 = jobsCache b) by (subst b1; by case_match).
    clearbody b1. case_match; cbn [fst].
    + by apply inv_enqueueJobInternal, inv_with_retries.
    + destruct dbOk; cbn [fst]; [|done].
      apply inv_set_result; [|by apply inv_with_database].
      simpl. rewrite Hj1, Hitem. eauto.
  - by apply inv_timeoutCheck.
Qed.

Lemma inv_restore b entry : broker_inv b → broker_inv (restore b entry).
Proof.
  intros Hb. destruct entry as [item [result|]]; unfold restore; cbn beta iota zeta.
  - apply inv_set_result; [simpl; rewrite lookup_insert_eq; eauto|].
    by apply inv_set_job.
  - by apply inv_enqueueJobInternal, inv_set_job.
Qed.

Lemma inv_new db cfg : broker_inv (newProvingBroker db cfg).
Proof.
  split; simpl; try done.
  - apply NoDup_nil_2.
  - intros t. split; constructor.
Qed.

Lemma inv_start b : broker_inv b → broker_inv (start b).
Proof.
  unfold start. generalize (Database.allProvingJobs (database b)). intros entries.
  revert b. induction entries as [|e entries IH]; intros b Hb; simpl; [done|].
  by apply IH, inv_restore.
Qed.

Lemma run_snoc calls c b : run (calls ++ [c]) b = call c (run calls b).
Proof. unfold run. by rewrite fold_left_app. Qed.

Lemma reachable_ind (P : ProvingBroker → Prop) :
  (∀ db cfg, db_wf db → P (start (newProvingBroker db cfg))) →
  (∀ c b, reachable b → P b → P (call c b)) →
  ∀ b, reachable b → P b.
Proof.
  intros Hstart Hcall b (db & cfg & calls & Hdb & ->).
  induction calls as [|c calls IH] using rev_ind; simpl.
  - by apply Hstart.
  - rewrite run_snoc. apply Hcall; [|done]. by exists db, cfg, calls.
Qed.

Lemma reachable_inv b : reachable b → broker_inv b.
Proof.
  induction 1 using reachable_ind.
  - apply inv_start, inv_new.
  - by apply inv_call.
Qed.

(** ** Reports *)

(** C1, as the code has it.  A report for a job that already has a recorded
    outcome is not dropped.  [reportProvingJobSuccess], and a
    [reportProvingJobError] that is not retried, replace the outcome in the
    results cache and in the database by the one reported; a
    [reportProvingJobError] that is retried leaves the recorded outcome and
    the database as they are and puts the job on its queue once more. *)
Theorem report_on_settled_job (b : ProvingBroker) (id : V2ProvingJobId)
    (r : V2ProvingJobResult) :
  reachable b → resultsCache b !! id = Some r →
  (∀ value, let b' := (reportProvingJobSuccess true id value b).1 in
     resultsCache b' !! id = Some (ResultValue value)
     ∧ db_results (database b') !! id = Some (ResultValue value))
  ∧ (∀ err retry, let b' := (reportProvingJobError true id err retry b).1 in
     retry && (default 0 (retries b !! id) + 1 <? maxRetries b) = false →
     resultsCache b' !! id = Some (ResultError (String_of_error err))
     ∧ db_results (database b') !! id = Some (ResultError (String_of_error err)))
  ∧ (∀ dbOk err, let b' := (reportProvingJobError dbOk id err true b).1 in
     default 0 (retries b !! id) + 1 < maxRetries b →
     resultsCache b' = resultsCache b ∧ database b' = database b
     ∧ ∃ item, jobsCache b !! id = Some item ∧ queued b' ≡ₚ item :: queued b).
Proof.
  intros Hb Hr.
  destruct (results_indexed b (reachable_inv b Hb) id r Hr) as [item Hitem].
  split; [|split].
  - intros value. unfold reportProvingJobSuccess. rewrite Hitem. simpl.
    by rewrite !lookup_insert_eq.
  - intros err retry. unfold reportProvingJobError. rewrite Hitem.
    cbn zeta. intros Hretry.
    destruct (JsMap.get (inProgress b) id); cbn [maxRetries with_inProgress];
      rewrite Hretry; simpl; by rewrite !lookup_insert_eq.
  - intros dbOk err. unfold reportProvingJobError. rewrite Hitem.
    cbn zeta. intros Hlt. apply Z.ltb_lt in Hlt.
    destruct (JsMap.get (inProgress b) id); cbn [maxRetries with_inProgress];
      rewrite Hlt; cbn [andb fst]; (split; [done|]); (split; [done|]);
      exists item; (split; [done|]); by rewrite queued_enqueueJobInternal.
Qed.

Lemma db_wf_empty : db_wf Database.empty.
Proof. intros k j Hk. simpl in Hk. by rewrite lookup_empty in Hk. Qed.

Definition settled_once : ProvingBroker :=
  run [Enqueue true job1_vm; Acquire 0 all_classes; ReportSuccess true "1" "first"] fresh.

Lemma settled_once_reachable : reachable settled_once.
Proof.
  exists Database.empty, defaultConfig,
    [Enqueue true job1_vm; Acquire 0 all_classes; ReportSuccess true "1" "first"].
  split; [apply db_wf_empty | reflexivity].
Qed.

Lemma report_on_settled_job_witness :
  resultsCache (reportProvingJobSuccess true "1" "second" settled_once).1 !! "1"%string
  = Some (ResultValue "second").
Proof.
  assert (Hres : resultsCache settled_once !! "1"%string = Some (ResultValue "first"))
    by (vm_compute; reflexivity).
  exact (proj1 (proj1 (report_on_settled_job settled_once "1" (ResultValue "first")
                         settled_once_reachable Hres) "second")).
Defined.

(** C1 fails as stated: a second success report for a settled job replaces
    the outcome in the results cache and in the database. *)
Lemma settled_report_counterexample :
  let b' := (reportProvingJobSuccess true "1" "second" settled_once).1 in
  resultsCache settled_once !! "1"%string = Some (ResultValue "first")
  ∧ resultsCache b' !! "1"%string = Some (ResultValue "second")
  ∧ db_results (database b') !! "1"%string = Some (ResultValue "second").
Proof. repeat split; vm_compute; reflexivity. Qed.

(** C5, with the scenario as the code runs it.  For a known job a failure
    reported with [retry] puts the job back on its class queue, counts one
    more retry and writes nothing to the database exactly when one more than
    the retries so far is below [maxRetries]; otherwise, the database
    accepting the write, the error is stored and entered in the results
    cache and neither the queues nor the retry counts change.  With
    [maxRetries = 3], enqueueing and then three rounds of dispatch and failed
    report leave the job rejected and no job queued. *)
Theorem report_failure_retry_bound :
  (∀ b id err dbOk item, jobsCache b !! id = Some item →
     let attempts := default 0 (retries b !! id) in
     let b' := (reportProvingJobError dbOk id err true b).1 in
     (attempts + 1 < maxRetries b →
        retries b' !! id = Some (attempts + 1)
        ∧ queues b' = <[job_type item :=
             PriorityMemoryQueue.put provingJobComparator item (queues b (job_type item))]>
             (queues b)
        ∧ database b' = database b
        ∧ resultsCache b' = resultsCache b)
     ∧ (¬ attempts + 1 < maxRetries b → dbOk = true →
        db_results (database b') !! id = Some (ResultError (String_of_error err))
        ∧ resultsCache b' !! id = Some (ResultError (String_of_error err))
        ∧ queues b' = queues b
        ∧ retries b' = retries b))
  ∧ (let b := run [ Enqueue true job1_vm;
                    Acquire 0 all_classes; ReportFailure true "1" test_error true;
                    Acquire 1 all_classes; ReportFailure true "1" test_error true;
                    Acquire 2 all_classes; ReportFailure true "1" test_error true ]
                (start (newProvingBroker Database.empty (mkConfig None None (Some 3)))) in
     getProvingJobStatus "1" b = StatusRejected "Error: test error"
     ∧ queued b = []).
Proof.
  split; [|split; vm_compute; reflexivity].
  intros b id err dbOk item Hitem attempts b'. subst attempts b'.
  unfold reportProvingJobError. rewrite Hitem. split.
  - intros Hlt. apply Z.ltb_lt in Hlt.
    destruct (JsMap.get (inProgress b) id); cbn [maxRetries with_inProgress];
      rewrite Hlt; simpl; rewrite lookup_insert_eq; auto.
  - intros Hge ->. apply Z.ltb_nlt in Hge.
    destruct (JsMap.get (inProgress b) id); cbn [maxRetries with_inProgress];
      rewrite Hge; simpl; rewrite !lookup_insert_eq; auto.
Qed.

Lemma report_failure_retry_bound_witness :
  let b := run [Enqueue true job1_vm; Acquire 0 all_classes] fresh in
  retries (reportProvingJobError true "1" test_error true b).1 !! "1"%string
  = Some 1.
Proof.
  apply (proj1 report_failure_retry_bound
           (run [Enqueue true job1_vm; Acquire 0 all_classes] fresh)
           "1"%string test_error true job1_vm).
  - vm_compute. reflexivity.
  - vm_compute. reflexivity.
Defined.

(** C5 fails as stated: three failure reports in a row, with no dispatch in
    between, leave the job rejected and still queued, twice. *)
Lemma three_failures_counterexample :
  let b := run [ Enqueue true job1_vm; Acquire 0 all_classes;
                 ReportFailure true "1" test_error true;
                 ReportFailure true "1" test_error true;
                 ReportFailure true "1" test_error true ]
             (start (newProvingBroker Database.empty (mkConfig None None (Some 3)))) in
  getProvingJobStatus "1" b = StatusRejected "Error: test error"
  ∧ queues b PUBLIC_VM = [job1_vm; job1_vm].
Proof. split; vm_compute; reflexivity. Qed.

(** ** Priority at dispatch *)

(** The rank of a proof class: its place in the priority array. *)
Definition rank (t : ProvingRequestType) : Z :=
  indexOf PROOF_TYPES_IN_PRIORITY_ORDER t.

Lemma indexOf_bounds {A} `{EqDecision A} (l : list A) (x : A) :
  -1 ≤ indexOf l x ∧ (indexOf l x = -1 ↔ x ∉ l).
Proof.
  induction l as [|y l [IH1 IH2]]; simpl.
  - split; [lia|]. split; [intros _; apply not_elem_of_nil | done].
  - rewrite not_elem_of_cons. case_decide as Hy.
    + split; [lia|]. split; [lia | intros [? _]; congruence].
    + destruct (Z.eqb_spec (indexOf l x) (-1)) as [Heq|Hne].
      * split; [lia|]. split; [intros _; split; [congruence | by apply IH2] | done].
      * split; [lia|]. split; [lia | intros [_ ?%IH2]; lia].
Qed.

Lemma proofTypeComparatorOver_unranked {A} `{EqDecision A}
    (order : list A) (a b : A) :
  a ∉ order → b ∈ order →
  proofTypeComparatorOver order a b = 1 ∧ proofTypeComparatorOver order b a = -1.
Proof.
  intros Ha Hb. unfold proofTypeComparatorOver.
  destruct (indexOf_bounds order a) as [_ Ha'].
  destruct (indexOf_bounds order b) as [Hb1 Hb'].
  apply Ha' in Ha. assert (Hb2 : indexOf order b ≠ -1) by (intros ?%Hb'; done).
  rewrite Ha. clear Ha' Hb'.
  destruct (Z.eqb_spec (-1) (indexOf order b)); [lia|].
  destruct (Z.eqb_spec (indexOf order b) (-1)); [lia|].
  split; reflexivity.
Qed.

Lemma rank_ranked (t : ProvingRequestType) : 0 ≤ rank t < 12.
Proof. destruct t; vm_compute; split; congruence. Qed.

Lemma proofTypeComparator_rank (a b : ProvingRequestType) :
  proofTypeComparator a b
  = match rank a ?= rank b with Lt => -1 | Eq => 0 | Gt => 1 end.
Proof. destruct a, b; reflexivity. Qed.

Lemma proofTypeComparator_lt (a b : ProvingRequestType) :
  proofTypeComparator a b < 0 ↔ rank a < rank b.
Proof.
  rewrite proofTypeComparator_rank.
  destruct (Z.compare_spec (rank a) (rank b)); lia.
Qed.

Lemma proofTypeComparator_le (a b : ProvingRequestType) :
  proofTypeComparator a b ≤ 0 ↔ rank a ≤ rank b.
Proof.
  rewrite proofTypeComparator_rank.
  destruct (Z.compare_spec (rank a) (rank b)); lia.
Qed.

Lemma elem_of_allowed (filter : ProvingJobFilter) (t : ProvingRequestType) :
  t ∈ allowed filter
  ↔ match allowList filter with Some l => t ∈ l | None => True end.
Proof.
  unfold allowed. destruct (allowList filter) as [l|]; [done|].
  split; [done|]. intros _. apply ProvingRequestType_values_complete.
Qed.

(** C6. The job a reachable broker hands out is the head of the queue of its
    own class; that class is one the caller's allow list names, when the
    caller gave one, and no class the caller allows (every class, without an
    allow list) with a job queued ranks before it; no job queued in that
    class has a lower epoch; with nothing to hand out the queue of every
    class the caller allows is empty.  The rank is the place
    in the priority array, which holds all twelve classes; a class outside
    such an array would compare after every class in it.  A queue takes a
    job behind the jobs of the same or a lower epoch and before those of a
    higher one, so equal epochs leave in the order they came.  In scenario
    S1 the BLOCK_ROOT_ROLLUP job of epoch 9 leaves before the PUBLIC_VM job
    of epoch 5; in scenario S2 the epoch 3 job leaves first, then the epoch 7
    job. *)
Theorem acquire_priority_order :
  (∀ b now filter b' item,
     reachable b → getProvingJob now filter b = (b', Some item) →
     match allowList filter with
     | Some l => job_type item ∈ l
     | None => True
     end
     ∧ (∃ q, queues b (job_type item) = item :: q
             ∧ queues b' = <[job_type item := q]> (queues b))
     ∧ (∀ t, match allowList filter with Some l => t ∈ l | None => True end →
             queues b t ≠ [] → rank (job_type item) ≤ rank t)
     ∧ (∀ k, k ∈ queues b (job_type item) → blockNumber item ≤ blockNumber k))
  ∧ (∀ b now filter b',
       getProvingJob now filter b = (b', None) →
       b' = b
       ∧ ∀ t, match allowList filter with Some l => t ∈ l | None => True end →
              queues b t = [])
  ∧ (PROOF_TYPES_IN_PRIORITY_ORDER
       = [ BLOCK_ROOT_ROLLUP; BLOCK_MERGE_ROLLUP; ROOT_ROLLUP; MERGE_ROLLUP;
           PUBLIC_BASE_ROLLUP; PRIVATE_BASE_ROLLUP; PUBLIC_VM; TUBE_PROOF;
           ROOT_PARITY; BASE_PARITY; EMPTY_BLOCK_ROOT_ROLLUP; PRIVATE_KERNEL_EMPTY ]
     ∧ (∀ t, PROOF_TYPES_IN_PRIORITY_ORDER !! Z.to_nat (rank t) = Some t)
     ∧ (∀ a c, proofTypeComparator a c < 0 ↔ rank a < rank c))
  ∧ (∀ (order : list ProvingRequestType) a c, a ∉ order → c ∈ order →
       proofTypeComparatorOver order a c = 1 ∧ proofTypeComparatorOver order c a = -1)
  ∧ (∀ job q, StronglySorted epoch_le q →
       ∃ q1 q2, q = q1 ++ q2
         ∧ PriorityMemoryQueue.put provingJobComparator job q = q1 ++ job :: q2
         ∧ Forall (fun k => blockNumber k ≤ blockNumber job) q1
         ∧ Forall (fun k => blockNumber job < blockNumber k) q2)
  ∧ (getProvingJob 0 all_classes
       (run [Enqueue true job1_vm; Enqueue true job2_block_root] fresh)).2
     = Some job2_block_root
  ∧ (let filter := mkFilter (Some [MERGE_ROLLUP]) in
     let first := getProvingJob 0 filter
                    (run [Enqueue true job1_merge; Enqueue true job2_merge] fresh) in
     first.2 = Some job2_merge
     ∧ (getProvingJob 0 filter first.1).2 = Some job1_merge).
Proof.
  split; [|split; [|split; [|split; [|split; [|split]]]]].
  - intros b now filter b' item Hb Hget. unfold getProvingJob in Hget.
    apply getProvingJob_loop_Some in Hget
      as (pre & t & post & q & Hsorted & Hpre & Hq & ->).
    destruct (queues_ordered b (reachable_inv b Hb) t) as [Hs Ht].
    rewrite Hq in Hs, Ht.
    assert (Htype : job_type item = t) by (by inversion Ht).
    subst t.
    assert (Hperm : allowedProofs filter ≡ₚ allowed filter)
      by apply Array_sort_perm.
    split; [|split; [|split]].
    + apply elem_of_allowed. rewrite <- Hperm, Hsorted.
      apply elem_of_app. right. left.
    + exists q. by split.
    + intros t Hin%elem_of_allowed Hne. rewrite <- Hperm, Hsorted in Hin.
      apply elem_of_app in Hin as [Hin|Hin].
      { rewrite Forall_forall in Hpre. destruct Hne. by apply Hpre. }
      apply elem_of_cons in Hin as [->|Hin]; [lia|].
      pose proof (Array_sort_sorted proofTypeComparator rank
                    proofTypeComparator_lt (allowed filter)) as Hss.
      change (Array_sort proofTypeComparator (allowed filter))
        with (allowedProofs filter) in Hss. rewrite Hsorted in Hss.
      apply sorted_middle in Hss. rewrite Forall_forall in Hss. by apply Hss.
    + intros k Hk. rewrite Hq in Hk. apply elem_of_cons in Hk as [->|Hk]; [lia|].
      inversion Hs as [|? ? _ Hall]; subst.
      rewrite Forall_forall in Hall. by apply Hall.
  - intros b now filter b' Hget. unfold getProvingJob in Hget.
    apply getProvingJob_loop_None in Hget as [-> Hall]. split; [done|].
    intros t Ht%elem_of_allowed. rewrite Forall_forall in Hall. apply Hall.
    unfold allowedProofs. by rewrite Array_sort_perm.
  - split; [reflexivity|]. split; [by intros []|apply proofTypeComparator_lt].
  - intros order a c. apply proofTypeComparatorOver_unranked.
  - intros job q Hq.
    apply (insertSorted_behind provingJobComparator blockNumber
             provingJobComparator_lt job q Hq).
  - vm_compute. reflexivity.
  - split; vm_compute; reflexivity.
Qed.

Lemma acquire_priority_order_witness :
  let b := run [Enqueue true job1_vm; Enqueue true job2_block_root] fresh in
  let filter := mkFilter (Some [PUBLIC_VM; BLOCK_ROOT_ROLLUP; TUBE_PROOF]) in
  job_type job2_block_root ∈ [PUBLIC_VM; BLOCK_ROOT_ROLLUP; TUBE_PROOF]
  ∧ rank (job_type job2_block_root) ≤ rank PUBLIC_VM.
Proof.
  assert (Hb : reachable (run [Enqueue true job1_vm; Enqueue true job2_block_root] fresh)).
  { exists Database.empty, defaultConfig,
      [Enqueue true job1_vm; Enqueue true job2_block_root].
    split; [apply db_wf_empty | reflexivity]. }
  assert (Hget : getProvingJob 0 (mkFilter (Some [PUBLIC_VM; BLOCK_ROOT_ROLLUP; TUBE_PROOF]))
            (run [Enqueue true job1_vm; Enqueue true job2_block_root] fresh)
          = ((getProvingJob 0 (mkFilter (Some [PUBLIC_VM; BLOCK_ROOT_ROLLUP; TUBE_PROOF]))
               (run [Enqueue true job1_vm; Enqueue true job2_block_root] fresh)).1,
             Some job2_block_root)) by (vm_compute; reflexivity).
  destruct (proj1 acquire_priority_order _ _ _ _ _ Hb Hget) as (Hin & _ & Hrank & _).
  split; [exact Hin|].
  apply Hrank.
  - left.
  - vm_compute. discriminate.
Defined.

(** ** The timeout sweep *)

Definition lease_expired (timeout now : Z) (metadata : InProgressMetadata) : bool :=
  now - lastUpdatedAt metadata >=? timeout.

(** The entries a sweep removes: those of unknown jobs and the expired. *)
Definition reclaim (jobs : gmap V2ProvingJobId V2ProvingJob) (timeout now : Z)
    (entry : V2ProvingJobId * InProgressMetadata) : bool :=
  match jobs !! entry.1 with
  | None => true
  | Some _ => lease_expired timeout now entry.2
  end.

(** The job a sweep queues again for an entry, if any. *)
Definition requeue (jobs : gmap V2ProvingJobId V2ProvingJob) (timeout now : Z)
    (entry : V2ProvingJobId * InProgressMetadata) : option V2ProvingJob :=
  match jobs !! entry.1 with
  | None => None
  | Some item => if lease_expired timeout now entry.2 then Some item else None
  end.

Definition of_class (t : ProvingRequestType) (jobs : list V2ProvingJob)
    : list V2ProvingJob :=
  filter (fun j => job_type j = t) jobs.

Lemma queues_enqueueJobInternal job b t :
  queues (enqueueJobInternal job b) t ≡ₚ of_class t [job] ++ queues b t.
Proof.
  unfold enqueueJobInternal, of_class. simpl. rewrite filter_cons, filter_nil.
  destruct (decide (job_type job = t)) as [<-|Hne].
  - rewrite fn_lookup_insert. apply insertSorted_perm.
  - by rewrite fn_lookup_insert_ne.
Qed.

Lemma timeoutCheck_entry_effect now b entry :
  let b' := timeoutCheck_entry now b entry in
  let jobs := jobsCache b in
  let timeout := proofRequestTimeoutMs b in
  jobsCache b' = jobs ∧ proofRequestTimeoutMs b' = timeout
  ∧ resultsCache b' = resultsCache b ∧ retries b' = retries b
  ∧ database b' = database b ∧ maxRetries b' = maxRetries b
  ∧ inProgress b' = (if reclaim jobs timeout now entry
                     then JsMap.delete (inProgress b) entry.1 else inProgress b)
  ∧ ∀ t, queues b' t
         ≡ₚ of_class t (option_list (requeue jobs timeout now entry)) ++ queues b t.
Proof.
  destruct entry as [id metadata].
  unfold timeoutCheck_entry, reclaim, requeue, lease_expired. cbn [fst snd].
  destruct (jobsCache b !! id) as [item|]; [|by repeat split].
  destruct (now - lastUpdatedAt metadata >=? proofRequestTimeoutMs b);
    [|by repeat split].
  repeat split. intros t.
  exact (queues_enqueueJobInternal item
           (with_inProgress b (JsMap.delete (inProgress b) id)) t).
Qed.

Lemma timeoutCheck_fold now entries b :
  let b' := fold_left (timeoutCheck_entry now) entries b in
  let jobs := jobsCache b in
  let timeout := proofRequestTimeoutMs b in
  (jobsCache b' = jobs ∧ proofRequestTimeoutMs b' = timeout
   ∧ resultsCache b' = resultsCache b ∧ retries b' = retries b
   ∧ database b' = database b ∧ maxRetries b' = maxRetries b)
  ∧ (∀ id, Exists (fun e => e.1 = id ∧ reclaim jobs timeout now e = true) entries →
           JsMap.get (inProgress b') id = None)
  ∧ (∀ id, Forall (fun e => e.1 = id → reclaim jobs timeout now e = false) entries →
           JsMap.get (inProgress b') id = JsMap.get (inProgress b) id)
  ∧ ∀ t, queues b' t
         ≡ₚ of_class t (omap (requeue jobs timeout now) entries) ++ queues b t.
Proof.
  revert b. induction entries as [|e entries IH]; intros b; cbn zeta.
  { simpl. repeat split; try done. by intros id ?%Exists_nil. }
  cbn [fold_left].
  destruct (timeoutCheck_entry_effect now b e)
    as (Hj & Ht & Hr & Hc & Hd & Hm & Hip & Hq).
  destruct (IH (timeoutCheck_entry now b e)) as (Hframe & Hgone & Hkept & Hqs).
  cbn zeta in Hframe, Hgone, Hkept, Hqs. rewrite Hj, Ht in Hgone, Hkept, Hqs.
  split; [|split; [|split]].
  - destruct Hframe as (-> & -> & -> & -> & -> & ->). by repeat split.
  - intros id [[<- Hrec]|Hex]%Exists_cons.
    + set (rest := fun e' => e'.1 = e.1 → reclaim (jobsCache b) (proofRequestTimeoutMs b) now e' = false).
      destruct (decide (Exists (fun e' => e'.1 = e.1 ∧ reclaim (jobsCache b)
                          (proofRequestTimeoutMs b) now e' = true) entries))
        as [Hex|Hnex]; [by apply Hgone|].
      rewrite Hkept, Hip, Hrec; [apply JsMapFacts.get_delete_eq|].
      apply Forall_forall. intros e' Hin Heq.
      destruct (reclaim (jobsCache b) (proofRequestTimeoutMs b) now e') eqn:He'; [|done].
      destruct Hnex. apply Exists_exists. by exists e'.
    + by apply Hgone.
  - intros id [Hhd Htl]%Forall_cons. rewrite Hkept by done. rewrite Hip.
    destruct (reclaim (jobsCache b) (proofRequestTimeoutMs b) now e) eqn:Hrec; [|done].
    apply JsMapFacts.get_delete_ne. intros Heq. apply Hhd in Heq. congruence.
  - intros t. rewrite Hqs, Hq. cbn [omap list_omap]. unfold of_class.
    destruct (requeue (jobsCache b) (proofRequestTimeoutMs b) now e) as [item|];
      cbn [option_list]; [|done].
    rewrite (filter_cons _ item []), (filter_cons _ item (omap _ _)), filter_nil.
    destruct (decide (job_type item = t)); simpl; [|done].
    symmetry. apply Permutation_middle.
Qed.

(** C7. A sweep removes the entry of every job whose last update is at least
    the timeout old and puts that job on the queue of its class; it removes
    the entry of a job that is no longer indexed and queues nothing for it;
    it keeps every other entry as it is.  Nothing else is queued, and the
    retry counts, the caches and the database are as before.  In scenario S3
    the job is handed out again after the sweep and its retry count still
    reads 0. *)
Theorem sweep_reclaims (b : ProvingBroker) (now : Z) :
  NoDup (JsMap.keys (inProgress b)) →
  let b' := timeoutCheck now b in
  (∀ id metadata, (id, metadata) ∈ inProgress b →
     match jobsCache b !! id with
     | None => JsMap.get (inProgress b') id = None
     | Some item =>
         if now - lastUpdatedAt metadata >=? proofRequestTimeoutMs b
         then JsMap.get (inProgress b') id = None
              ∧ item ∈ queues b' (job_type item)
         else JsMap.get (inProgress b') id = Some metadata
     end)
  ∧ (∀ t, queues b' t
          ≡ₚ of_class t
               (omap (requeue (jobsCache b) (proofRequestTimeoutMs b) now)
                     (inProgress b))
             ++ queues b t)
  ∧ retries b' = retries b
  ∧ jobsCache b' = jobsCache b
  ∧ resultsCache b' = resultsCache b
  ∧ database b' = database b
  ∧ (let leased_ := run [Enqueue true job1_vm; Acquire 0 all_classes] fresh in
     let swept := timeoutCheck (0 + proofRequestTimeoutMs leased_ + 1) leased_ in
     (getProvingJob 40000 all_classes swept).2 = Some job1_vm
     ∧ default 0 (retries swept !! "1"%string) = 0).
Proof.
  intros Hnodup b'.
  destruct (timeoutCheck_fold now (inProgress b) b)
    as ((Hj & Ht & Hr & Hc & Hd & Hm) & Hgone & Hkept & Hqs).
  fold (timeoutCheck now b) in Hj, Ht, Hr, Hc, Hd, Hm, Hgone, Hkept, Hqs.
  split; [|repeat split; try done; vm_compute; reflexivity].
  intros id metadata Hin.
  assert (Hkey : ∀ e, e ∈ inProgress b → e.1 = id → e = (id, metadata)).
  { intros [id' m'] Hin' Heq. simpl in Heq. subst id'.
    apply JsMapFacts.get_elem_NoDup in Hin, Hin'; try done. congruence. }
  destruct (reclaim (jobsCache b) (proofRequestTimeoutMs b) now (id, metadata)) eqn:Hrec.
  - assert (Hnone : JsMap.get (inProgress b') id = None).
    { apply Hgone, Exists_exists. by exists (id, metadata). }
    unfold reclaim, lease_expired in Hrec. cbn [fst snd] in Hrec.
    destruct (jobsCache b !! id) as [item|] eqn:Hitem; [|done].
    rewrite Hrec. split; [done|].
    subst b'. rewrite (Hqs (job_type item)). apply elem_of_app. left.
    unfold of_class. apply list_elem_of_filter. split; [done|].
    apply list_elem_of_omap. exists (id, metadata). split; [done|].
    unfold requeue, lease_expired. cbn [fst snd]. by rewrite Hitem, Hrec.
  - assert (Hsome : JsMap.get (inProgress b') id = Some metadata).
    { subst b'. rewrite Hkept; [by apply JsMapFacts.get_elem_NoDup|].
      apply Forall_forall. intros e He Heq. by rewrite (Hkey e He Heq). }
    unfold reclaim, lease_expired in Hrec. cbn [fst snd] in Hrec.
    destruct (jobsCache b !! id) as [item|] eqn:Hitem; [|done].
    by rewrite Hrec.
Qed.

Lemma sweep_reclaims_witness :
  let b := run [Enqueue true job1_vm; Acquire 0 all_classes] fresh in
  retries (timeoutCheck 30001 b) = retries b.
Proof.
  apply (sweep_reclaims (run [Enqueue true job1_vm; Acquire 0 all_classes] fresh) 30001).
  vm_compute. apply NoDup_singleton.
Defined.

(** ** Recovery at start *)

(** The jobs of the enumeration that come without a result. *)
Definition unsettled (entries : list (V2ProvingJob * option V2ProvingJobResult))
    : list V2ProvingJob :=
  omap (fun e => match e.2 with None => Some e.1 | Some _ => None end) entries.

Definition entry_ids (entries : list (V2ProvingJob * option V2ProvingJobResult))
    : list V2ProvingJobId :=
  map (fun e => job_id e.1) entries.

Lemma restore_effect b e :
  let b' := restore b e in
  jobsCache b' = <[job_id e.1 := e.1]> (jobsCache b)
  ∧ resultsCache b' = match e.2 with
                      | Some r => <[job_id e.1 := r]> (resultsCache b)
                      | None => resultsCache b
                      end
  ∧ inProgress b' = inProgress b ∧ retries b' = retries b
  ∧ database b' = database b
  ∧ ∀ t, queues b' t ≡ₚ of_class t (unsettled [e]) ++ queues b t.
Proof.
  destruct e as [item [r|]]; cbn; repeat split; try done.
  intros t.
  exact (queues_enqueueJobInternal item
           (with_jobsCache b (<[job_id item := item]> (jobsCache b))) t).
Qed.

Lemma restore_fold entries b :
  NoDup (entry_ids entries) →
  let b' := fold_left restore entries b in
  (∀ e, e ∈ entries → jobsCache b' !! job_id e.1 = Some e.1)
  ∧ (∀ id, id ∉ entry_ids entries → jobsCache b' !! id = jobsCache b !! id)
  ∧ (∀ e, e ∈ entries →
       resultsCache b' !! job_id e.1
       = match e.2 with Some r => Some r | None => resultsCache b !! job_id e.1 end)
  ∧ (∀ id, id ∉ entry_ids entries → resultsCache b' !! id = resultsCache b !! id)
  ∧ (inProgress b' = inProgress b ∧ retries b' = retries b
     ∧ database b' = database b)
  ∧ ∀ t, queues b' t ≡ₚ of_class t (unsettled entries) ++ queues b t.
Proof.
  revert b. induction entries as [|e entries IH]; intros b Hnd; cbn zeta.
  { simpl. repeat split; try done; by intros e ?%elem_of_nil. }
  cbn [fold_left]. cbn [entry_ids map] in Hnd. apply NoDup_cons in Hnd as [Hne Hnd].
  change (map (fun e => job_id e.1) entries) with (entry_ids entries) in Hne, Hnd.
  destruct (restore_effect b e) as (Hj & Hr & Hip & Hc & Hd & Hq).
  destruct (IH (restore b e) Hnd) as (A1 & A2 & R1 & R2 & (Fip & Fc & Fd) & Q).
  cbn zeta in A1, A2, R1, R2, Fip, Fc, Fd, Q.
  split; [|split; [|split; [|split; [|split]]]].
  - intros e' [->|Hin]%elem_of_cons; [|by apply A1].
    rewrite A2, Hj by done. apply lookup_insert_eq.
  - intros id Hid. cbn [entry_ids map] in Hid. apply not_elem_of_cons in Hid as [Hid1 Hid2].
    rewrite A2, Hj by done. by rewrite lookup_insert_ne.
  - intros e' [->|Hin]%elem_of_cons.
    + rewrite R2, Hr by done. destruct (e.2); [apply lookup_insert_eq | done].
    + rewrite R1, Hr by done. destruct (e'.2); [done|].
      assert (job_id e.1 ≠ job_id e'.1).
      { intros Heq. apply Hne. rewrite Heq. unfold entry_ids.
        apply list_elem_of_fmap. by exists e'. }
      destruct (e.2); [by rewrite lookup_insert_ne | done].
  - intros id Hid. cbn [entry_ids map] in Hid. apply not_elem_of_cons in Hid as [Hid1 Hid2].
    rewrite R2, Hr by done. destruct (e.2); [by rewrite lookup_insert_ne | done].
  - by rewrite Fip, Fc, Fd.
  - intros t. rewrite Q, Hq. unfold unsettled, of_class. cbn [omap list_omap].
    destruct (e.2); [done|].
    rewrite (filter_cons _ e.1 []), (filter_cons _ e.1 (omap _ _)), filter_nil.
    destruct (decide (job_type e.1 = t)); simpl; [|done].
    symmetry. apply Permutation_middle.
Qed.

Lemma allProvingJobs_NoDup db : db_wf db → NoDup (entry_ids (Database.allProvingJobs db)).
Proof.
  intros Hdb. unfold entry_ids, Database.allProvingJobs.
  rewrite <- list_fmap_compose.
  assert (Heq : (fun e : V2ProvingJob * option V2ProvingJobResult => job_id e.1)
                  ∘ (fun kv : V2ProvingJobId * V2ProvingJob =>
                       (kv.2, db_results db !! job_id kv.2))
                <$> map_to_list (db_jobs db)
                = (map_to_list (db_jobs db)).*1).
  { apply list_fmap_ext. intros i [k j] Hkj. simpl.
    apply Hdb. apply elem_of_map_to_list. apply list_elem_of_lookup. eauto. }
  unfold fmap in Heq. unfold fmap. rewrite Heq. apply NoDup_fst_map_to_list.
Qed.

Lemma elem_of_unsettled job entries : job ∈ unsettled entries ↔ (job, None) ∈ entries.
Proof.
  unfold unsettled. rewrite list_elem_of_omap. split.
  - intros ([j [r|]] & Hin & Heq); simpl in Heq; [done|]. by injection Heq as ->.
  - intros Hin. by exists (job, None).
Qed.

Lemma entry_ids_unique entries e1 e2 :
  NoDup (entry_ids entries) → e1 ∈ entries → e2 ∈ entries →
  job_id e1.1 = job_id e2.1 → e1 = e2.
Proof.
  induction entries as [|e entries IH]; [by intros _ ?%elem_of_nil|].
  cbn [entry_ids map]. intros [Hne Hnd]%NoDup_cons.
  change (map (fun e => job_id e.1) entries) with (entry_ids entries) in Hne, Hnd.
  assert (Hin : ∀ x, x ∈ entries → job_id x.1 ∈ entry_ids entries).
  { intros x Hx. apply list_elem_of_fmap. by exists x. }
  intros [->|H1]%elem_of_cons [->|H2]%elem_of_cons Heq; auto.
  - destruct Hne. rewrite Heq. by apply Hin.
  - destruct Hne. rewrite <- Heq. by apply Hin.
Qed.

Definition stored_J1 : V2ProvingJob := mkJob "J1" PUBLIC_VM 1 "x".
Definition stored_J2 : V2ProvingJob := mkJob "J2" TUBE_PROOF 1 "y".
Definition stored_J3 : V2ProvingJob := mkJob "J3" ROOT_PARITY 1 "z".
Definition seeded : ProvingBrokerDatabase :=
  {| db_jobs := <["J1"%string := stored_J1]> (<["J2"%string := stored_J2]>
                  (<["J3"%string := stored_J3]> ∅));
     db_results := <["J1"%string := ResultValue "proof"]>
                     (<["J3"%string := ResultError "Error: failed"]> ∅);
     db_journal := [] |}.

(** C9. After [start] on a fresh broker over a well formed database, every
    enumerated job is in the jobs cache; one that comes with a result has
    that result in the results cache and its id is in no queue; one that
    comes without is in the queue of its class and has no result; the caches
    and the queues hold nothing else, and nothing is in progress or counted
    as retried.  In scenario S6 the status of J1 is resolved, that of J3 is
    rejected, the first dispatch gives J2 and the second gives nothing. *)
Theorem start_recovers :
  (∀ db cfg, db_wf db →
     let b := start (newProvingBroker db cfg) in
     let entries := Database.allProvingJobs db in
     (∀ job result, (job, result) ∈ entries →
        jobsCache b !! job_id job = Some job
        ∧ match result with
          | Some r => resultsCache b !! job_id job = Some r
                      ∧ job_id job ∉ queued_ids b
          | None => job ∈ queues b (job_type job)
                    ∧ resultsCache b !! job_id job = None
          end)
     ∧ (∀ id job, jobsCache b !! id = Some job → ∃ result, (job, result) ∈ entries)
     ∧ (∀ id r, resultsCache b !! id = Some r →
          ∃ job, job_id job = id ∧ (job, Some r) ∈ entries)
     ∧ (∀ job, job ∈ queued b → (job, None) ∈ entries)
     ∧ inProgress b = [] ∧ retries b = ∅)
  ∧ (let b := start (newProvingBroker seeded defaultConfig) in
     let first := getProvingJob 0 all_classes b in
     getProvingJobStatus "J1" b = StatusResolved "proof"
     ∧ getProvingJobStatus "J3" b = StatusRejected "Error: failed"
     ∧ first.2 = Some stored_J2
     ∧ (getProvingJob 0 all_classes first.1).2 = None
     ∧ getProvingJobStatus "J4" b = StatusNotFound).
Proof.
  split; [|repeat split; vm_compute; reflexivity].
  intros db cfg Hdb b entries.
  pose proof (allProvingJobs_NoDup db Hdb) as Hnd. fold entries in Hnd.
  destruct (restore_fold entries (newProvingBroker db cfg) Hnd)
    as (A1 & A2 & R1 & R2 & (Fip & Fc & Fd) & Q).
  change (fold_left restore entries (newProvingBroker db cfg)) with b
    in A1, A2, R1, R2, Fip, Fc, Fd, Q.
  assert (Hqueue : ∀ t job, job ∈ queues b t ↔ job_type job = t ∧ (job, None) ∈ entries).
  { intros t job. rewrite (Q t). simpl. rewrite app_nil_r. unfold of_class.
    rewrite list_elem_of_filter, elem_of_unsettled. done. }
  assert (Hqueued : ∀ job, job ∈ queued b → (job, None) ∈ entries).
  { intros job (t & Hin)%elem_of_queued. by apply Hqueue in Hin as [_ ?]. }
  assert (Hjobs : ∀ id job, jobsCache b !! id = Some job → ∃ result, (job, result) ∈ entries).
  { intros id job Hjob. destruct (decide (id ∈ entry_ids entries)) as [Hin|Hnin].
    - apply list_elem_of_fmap in Hin as ([j r] & -> & Hin).
      rewrite (A1 _ Hin) in Hjob. simpl in Hjob. injection Hjob as <-. eauto.
    - rewrite A2 in Hjob by done. simpl in Hjob. by rewrite lookup_empty in Hjob. }
  assert (Hresults : ∀ id r, resultsCache b !! id = Some r →
            ∃ job, job_id job = id ∧ (job, Some r) ∈ entries).
  { intros id r Hres. destruct (decide (id ∈ entry_ids entries)) as [Hin|Hnin].
    - apply list_elem_of_fmap in Hin as ([j [r'|]] & -> & Hin);
        rewrite (R1 _ Hin) in Hres; simpl in Hres.
      + injection Hres as <-. eauto.
      + by rewrite lookup_empty in Hres.
    - rewrite R2 in Hres by done. simpl in Hres. by rewrite lookup_empty in Hres. }
  split; [|by repeat split].
  intros job result Hin. split; [exact (A1 _ Hin)|].
  destruct result as [r|].
  - split; [exact (R1 _ Hin)|].
    intros (k & Hk & Hkin%Hqueued)%list_elem_of_fmap.
    pose proof (entry_ids_unique entries _ _ Hnd Hin Hkin Hk). done.
  - split; [by apply Hqueue|].
    pose proof (R1 _ Hin) as Hres. simpl in Hres. rewrite Hres. apply lookup_empty.
Qed.

Lemma seeded_wf : db_wf seeded.
Proof.
  intros k j. unfold seeded. simpl.
  rewrite !lookup_insert. repeat case_decide; subst; by intros [= <-].
Qed.

Lemma start_recovers_witness :
  jobsCache (start (newProvingBroker seeded defaultConfig)) !! job_id stored_J2
  = Some stored_J2.
Proof.
  apply (proj1 (proj1 start_recovers seeded defaultConfig seeded_wf) stored_J2 None).
  vm_compute. set_solver.
Defined.

(** ** Leases and the caches *)




Lemma timeoutCheck_frame now b :
  jobsCache (timeoutCheck now b) = jobsCache b
  ∧ resultsCache (timeoutCheck now b) = resultsCache b
  ∧ retries (timeoutCheck now b) = retries b
  ∧ database (timeoutCheck now b) = database b.
Proof.
  destruct (timeoutCheck_fold now (inProgress b) b)
    as ((Hj & Ht & Hr & Hc & Hd & Hm) & _). by repeat split.
Qed.

Lemma leased_delete b id id' :
  leased (with_inProgress b (JsMap.delete (inProgress b) id)) id' →
  id ≠ id' ∧ leased b id'.
Proof.
  unfold leased. simpl. intros Hl. destruct (decide (id = id')) as [->|Hne].
  - rewrite JsMapFacts.get_delete_eq in Hl. by destruct Hl.
  - by rewrite JsMapFacts.get_delete_ne in Hl.
Qed.

Lemma leased_set b id meta id' :
  leased (with_inProgress b (JsMap.set (inProgress b) id meta)) id' →
  id = id' ∨ leased b id'.
Proof.
  unfold leased. simpl. intros Hl. destruct (decide (id = id')) as [->|Hne]; [by left|].
  right. by rewrite JsMapFacts.get_set_ne in Hl.
Qed.





(** ** Ids in the queues *)

(** No id is queued twice, no lease is held twice, an id in progress is not
    queued, and the ids queued or in progress are indexed, each job under
    its own id. *)
Record queue_inv (b : ProvingBroker) : Prop := mkQueueInv {
  queued_once : NoDup (queued_ids b);
  leased_once : NoDup (JsMap.keys (inProgress b));
  leased_not_queued : ∀ id, leased b id → id ∉ queued_ids b;
  queued_indexed : ∀ id, id ∈ queued_ids b → is_Some (jobsCache b !! id);
  leased_indexed : ∀ id, leased b id → is_Some (jobsCache b !! id);
  indexed_by_id : ∀ id job, jobsCache b !! id = Some job → job_id job = id
}.

(** The calls under which the queues stay free of repeats: a cancel of an
    id that is not queued, and a retried failure report for a job that is in
    progress.  Every other call qualifies. *)
Definition keeps_queues (c : BrokerCall) (b : ProvingBroker) : Prop :=
  match c with
  | Cancel dbOk id => dbOk = true → id ∉ queued_ids b
  | ReportFailure _ id _ retry =>
      retry = true → default 0 (retries b !! id) + 1 < maxRetries b →
      is_Some (jobsCache b !! id) → leased b id
  | _ => True
  end.

Fixpoint guarded (calls : list BrokerCall) (b : ProvingBroker) : Prop :=
  match calls with
  | [] => True
  | c :: calls' => keeps_queues c b ∧ guarded calls' (call c b)
  end.

Lemma queued_ids_enqueueJobInternal job b :
  queued_ids (enqueueJobInternal job b) ≡ₚ job_id job :: queued_ids b.
Proof. unfold queued_ids. by rewrite queued_enqueueJobInternal. Qed.

Lemma queue_inv_push item b :
  jobsCache b !! job_id item = Some item →
  job_id item ∉ queued_ids b → ¬ leased b (job_id item) →
  queue_inv b → queue_inv (enqueueJobInternal item b).
Proof.
  intros Hitem Hnq Hnl [H1 H2 H3 H4 H5 H6].
  split; try done.
  - rewrite queued_ids_enqueueJobInternal. by apply NoDup_cons.
  - intros id Hl. rewrite queued_ids_enqueueJobInternal.
    apply not_elem_of_cons. split; [|by apply H3].
    intros ->. by apply Hnl.
  - intros id. rewrite queued_ids_enqueueJobInternal.
    intros [->|Hin]%elem_of_cons; [|by apply H4].
    simpl. rewrite Hitem. eauto.
Qed.

Lemma queue_inv_unlease id b :
  queue_inv b → queue_inv (with_inProgress b (JsMap.delete (inProgress b) id)).
Proof.
  intros [H1 H2 H3 H4 H5 H6]. split; try done.
  - simpl. by apply JsMapFacts.NoDup_keys_delete.
  - intros id' [_ Hl]%leased_delete. by apply H3.
  - intros id' [_ Hl]%leased_delete. by apply H5.
Qed.

Lemma queue_inv_dispatch now filter b :
  queue_inv b → queue_inv (getProvingJob now filter b).1.
Proof.
  intros Hb. unfold getProvingJob.
  destruct (getProvingJob_loop now (allowedProofs filter) b) as [b' [item|]] eqn:Hloop;
    [|by apply getProvingJob_loop_None in Hloop as [-> _]].
  apply getProvingJob_loop_Some in Hloop as (pre & t & post & q & _ & _ & Hqt & ->).
  destruct Hb as [H1 H2 H3 H4 H5 H6]. cbn [fst].
  pose proof (queued_pop b t item q Hqt) as Hperm.
  assert (Hids : queued_ids b
                 ≡ₚ job_id item :: queued_ids (with_queues b (<[t := q]> (queues b)))).
  { unfold queued_ids. by rewrite Hperm. }
  rewrite Hids in H1. apply NoDup_cons in H1 as [Hfresh H1].
  split; try done.
  - simpl. by apply JsMapFacts.NoDup_keys_set.
  - intros id Hl.
    apply (leased_set (with_queues b (<[t := q]> (queues b)))) in Hl as [<-|Hl]; [done|].
    intros Hin. apply (H3 id Hl). rewrite Hids. by right.
  - intros id Hin. apply H4. rewrite Hids. by right.
  - intros id Hl.
    apply (leased_set (with_queues b (<[t := q]> (queues b)))) in Hl as [<-|Hl].
    + apply H4. rewrite Hids. by left.
    + by apply H5.
Qed.

Lemma queue_inv_sweep now b : queue_inv b → queue_inv (timeoutCheck now b).
Proof.
  intros Hb. unfold timeoutCheck.
  assert (Hkeys : NoDup (JsMap.keys (inProgress b))) by apply Hb.
  assert (Hall : Forall (fun e => leased b e.1) (inProgress b)).
  { apply Forall_forall. intros [id m] Hin. unfold leased. simpl.
    rewrite (JsMapFacts.get_elem_NoDup _ _ _ Hkeys Hin). eauto. }
  revert Hkeys Hall. generalize (inProgress b) at 1 2 3. intros entries.
  revert b Hb. induction entries as [|[id m] entries IH]; intros b Hb Hkeys Hall;
    simpl; [done|].
  unfold JsMap.keys in Hkeys. simpl in Hkeys. apply NoDup_cons in Hkeys as [Hid Hkeys].
  apply Forall_cons in Hall as [Hl Hall]. simpl in Hl.
  assert (Hrest : ∀ b', (∀ id', id' ≠ id → leased b id' → leased b' id') →
            Forall (fun e => leased b' e.1) entries).
  { intros b' Hb'. apply Forall_forall. intros e He. apply Hb'.
    - intros Heq. apply Hid. rewrite <- Heq. apply list_elem_of_fmap. by exists e.
    - rewrite Forall_forall in Hall. by apply Hall. }
  assert (Hdel : ∀ id', id' ≠ id → leased b id' →
            leased (with_inProgress b (JsMap.delete (inProgress b) id)) id').
  { intros id' Hne Hl'. unfold leased. simpl. by rewrite JsMapFacts.get_delete_ne. }
  apply IH; try done.
  - destruct (jobsCache b !! id) as [item|] eqn:Hitem; [|by apply queue_inv_unlease].
    case_match; [|done].
    pose proof (indexed_by_id b Hb id item Hitem) as Hjid.
    apply queue_inv_push.
    + simpl. by rewrite Hjid.
    + rewrite Hjid. by apply (leased_not_queued b Hb).
    + rewrite Hjid. by intros [? _]%leased_delete.
    + by apply queue_inv_unlease.
  - destruct (jobsCache b !! id) as [item|] eqn:Hitem; [case_match|];
      apply Hrest; auto.
Qed.

Lemma queue_inv_call c b : queue_inv b → keeps_queues c b → queue_inv (call c b).
Proof.
  intros Hb Hc.
  destruct c as [dbOk job|dbOk id|id|now filter|now id filter
                 |dbOk id value|dbOk id err retry|now]; simpl.
  - unfold enqueueProvingJob.
    destruct (jobsCache b !! job_id job) eqn:Hjob; [by case_decide|].
    destruct dbOk; [|done]. cbn [fst].
    assert (Hnone : ∀ x : V2ProvingJob, ¬ is_Some (None : option V2ProvingJob))
      by (intros _ [? ?]; done).
    apply queue_inv_push.
    + simpl. apply lookup_insert_eq.
    + intros Hin. apply (queued_indexed b Hb) in Hin. rewrite Hjob in Hin. by destruct Hin.
    + intros Hl. apply (leased_indexed b Hb) in Hl. rewrite Hjob in Hl. by destruct Hl.
    + destruct Hb as [H1 H2 H3 H4 H5 H6]. split; try done.
      * intros id Hin. simpl. apply H4 in Hin.
        destruct (decide (job_id job = id)) as [<-|Hne];
          [rewrite lookup_insert_eq; eauto | by rewrite lookup_insert_ne].
      * intros id Hl. simpl. apply H5 in Hl.
        destruct (decide (job_id job = id)) as [<-|Hne];
          [rewrite lookup_insert_eq; eauto | by rewrite lookup_insert_ne].
      * intros id j. simpl. destruct (decide (job_id job = id)) as [<-|Hne].
        -- rewrite lookup_insert_eq. congruence.
        -- rewrite lookup_insert_ne by done. apply H6.
  - destruct dbOk; [|done]. simpl in Hc. specialize (Hc eq_refl).
    destruct Hb as [H1 H2 H3 H4 H5 H6]. split; try done.
    + simpl. by apply JsMapFacts.NoDup_keys_delete.
    + intros id' [_ Hl]%(leased_delete b id id'). by apply H3.
    + intros id' Hin. simpl. rewrite lookup_delete_ne; [by apply H4|].
      intros ->. done.
    + intros id' [Hne Hl]%(leased_delete b id id'). simpl.
      rewrite lookup_delete_ne by done. by apply H5.
    + intros id' j. simpl. destruct (decide (id = id')) as [<-|Hne].
      * by rewrite lookup_delete_eq.
      * rewrite lookup_delete_ne by done. apply H6.
  - done.
  - by apply queue_inv_dispatch.
  - unfold reportProvingJobProgress.
    destruct (JsMap.get (inProgress b) id) as [metadata|] eqn:Hget; simpl.
    + assert (Hl : leased b id) by (unfold leased; rewrite Hget; eauto).
      destruct Hb as [H1 H2 H3 H4 H5 H6]. split; try done.
      * simpl. by apply JsMapFacts.NoDup_keys_set.
      * intros id' [<-|Hl']%leased_set; by apply H3.
      * intros id' [<-|Hl']%leased_set; by apply H5.
    + destruct filter; [by apply queue_inv_dispatch | done].
  - unfold reportProvingJobSuccess.
    destruct (jobsCache b !! id) as [item|] eqn:Hitem; [|done].
    set (b1 := match JsMap.get (inProgress b) id with Some _ => _ | None => b end).
    assert (Hb1 : queue_inv b1) by (subst b1; case_match; auto using queue_inv_unlease).
    clearbody b1. destruct dbOk; cbn [fst]; [|done].
    destruct Hb1 as [H1 H2 H3 H4 H5 H6]. by split.
  - unfold reportProvingJobError.
    destruct (jobsCache b !! id) as [item|] eqn:Hitem; [|done].
    simpl in Hc.
    destruct (JsMap.get (inProgress b) id) as [info|] eqn:Hget;
      cbn [maxRetries with_inProgress];
      destruct (retry && (default 0 (retries b !! id) + 1 <? maxRetries b)) eqn:Hretry;
      cbn [fst].
    + pose proof (indexed_by_id b Hb id item Hitem) as Hjid.
      assert (Hl : leased b id) by (unfold leased; rewrite Hget; eauto).
      apply queue_inv_push.
      * simpl. by rewrite Hjid.
      * rewrite Hjid. by apply (leased_not_queued b Hb).
      * rewrite Hjid. by intros [? _]%(leased_delete b id id).
      * apply (queue_inv_unlease id) in Hb.
        destruct Hb as [H1 H2 H3 H4 H5 H6]. by split.
    + apply (queue_inv_unlease id) in Hb.
      destruct dbOk; cbn [fst]; [|done].
      destruct Hb as [H1 H2 H3 H4 H5 H6]. by split.
    + apply andb_true_iff in Hretry as [-> Hlt%Z.ltb_lt].
      destruct (Hc eq_refl Hlt) as [m Hm]; [eauto|]. congruence.
    + destruct dbOk; cbn [fst]; [|done].
      destruct Hb as [H1 H2 H3 H4 H5 H6]. by split.
  - by apply queue_inv_sweep.
Qed.

Lemma queue_inv_start db cfg : db_wf db → queue_inv (start (newProvingBroker db cfg)).
Proof.
  intros Hdb.
  pose proof (allProvingJobs_NoDup db Hdb) as Hnd.
  destruct (restore_fold (Database.allProvingJobs db) (newProvingBroker db cfg) Hnd)
    as (Hin & _ & _ & _ & (Hip & _ & _) & Q).
  change (fold_left restore (Database.allProvingJobs db) (newProvingBroker db cfg))
    with (start (newProvingBroker db cfg)) in Hin, Hip, Q.
  change (inProgress (newProvingBroker db cfg)) with (@nil (V2ProvingJobId * InProgressMetadata)) in Hip.
  assert (Hq : ∀ job, job ∈ queued (start (newProvingBroker db cfg)) →
            (job, None) ∈ Database.allProvingJobs db).
  { intros job (t & Hjob)%elem_of_queued. rewrite (Q t) in Hjob. simpl in Hjob.
    rewrite app_nil_r in Hjob. unfold of_class in Hjob.
    by apply list_elem_of_filter in Hjob as [_ ?%elem_of_unsettled]. }
  split.
  - unfold queued_ids, queued.
    assert (Hsub : ∀ (l : list ProvingRequestType), NoDup l →
      NoDup (map job_id (flat_map (queues (start (newProvingBroker db cfg))) l))).
    { induction l as [|t l IH]; [constructor|].
      intros [Ht Hl]%NoDup_cons. simpl. rewrite map_app.
      apply NoDup_app. split; [|split; [|by apply IH]].
      - rewrite (Q t). simpl. rewrite app_nil_r. unfold of_class.
        apply (NoDup_fmap_2_strong job_id).
        + intros j1 j2 [_ H1%elem_of_unsettled]%list_elem_of_filter
            [_ H2%elem_of_unsettled]%list_elem_of_filter Heq.
          by pose proof (entry_ids_unique _ _ _ Hnd H1 H2 Heq) as [= ->].
        + apply NoDup_filter.
          unfold unsettled. clear -Hnd.
          induction (Database.allProvingJobs db) as [|[j [r|]] es IH]; simpl.
          * constructor.
          * apply NoDup_cons in Hnd as [_ Hnd]. by apply IH.
          * apply NoDup_cons in Hnd as [Hj Hnd]. apply NoDup_cons. split; [|by apply IH].
            intros ([j' [r'|]] & Hin & Heq)%list_elem_of_omap; simpl in Heq; [done|].
            injection Heq as ->. apply Hj. apply list_elem_of_fmap. by exists (j, None).
      - intros id (j1 & -> & Hj1)%list_elem_of_fmap (j2 & Heq & Hj2)%list_elem_of_fmap.
        apply list_elem_of_In, in_flat_map in Hj2 as (t' & Ht' & Hj2).
        apply list_elem_of_In in Ht', Hj2.
        rewrite (Q t) in Hj1. rewrite (Q t') in Hj2. simpl in Hj1, Hj2.
        rewrite app_nil_r in Hj1, Hj2. unfold of_class in Hj1, Hj2.
        apply list_elem_of_filter in Hj1 as [Ht1 H1%elem_of_unsettled].
        apply list_elem_of_filter in Hj2 as [Ht2 H2%elem_of_unsettled].
        pose proof (entry_ids_unique _ _ _ Hnd H1 H2 Heq) as [= ->].
        apply Ht. by rewrite <- Ht1, Ht2. }
    apply Hsub, ProvingRequestType_values_NoDup.
  - rewrite Hip. constructor.
  - intros id [m Hm]. by rewrite Hip in Hm.
  - intros id (j & -> & Hj%Hq)%list_elem_of_fmap.
    pose proof (Hin (j, None) Hj) as Hjob. simpl in Hjob. rewrite Hjob. eauto.
  - intros id [m Hm]. by rewrite Hip in Hm.
  - apply (jobs_keyed _ (inv_start _ (inv_new db cfg))).
Qed.

(** C4, as the code has it.  From a fresh broker started over a well formed
    database, no id is in the queues twice after any run in which a cancel
    that reaches the database is for an id that is not queued and a retried
    failure report is for a job in progress. *)
Theorem queued_at_most_once (db : ProvingBrokerDatabase)
    (cfg : ProofRequestBrokerConfig) (calls : list BrokerCall) :
  db_wf db → guarded calls (start (newProvingBroker db cfg)) →
  NoDup (queued_ids (run calls (start (newProvingBroker db cfg)))).
Proof.
  intros Hdb. pose proof (queue_inv_start db cfg Hdb) as Hb.
  revert Hb. generalize (start (newProvingBroker db cfg)). intros b Hb Hg.
  apply queued_once. revert b Hb Hg.
  induction calls as [|c calls IH]; intros b Hb Hg; simpl; [done|].
  destruct Hg as [Hc Hg]. apply IH; [|done]. by apply queue_inv_call.
Qed.

Lemma queued_at_most_once_witness :
  NoDup (queued_ids (run [ Enqueue true job1_vm; Acquire 0 all_classes;
                           ReportFailure true "1" test_error true ] fresh)).
Proof.
  apply (queued_at_most_once Database.empty defaultConfig
           [ Enqueue true job1_vm; Acquire 0 all_classes;
             ReportFailure true "1" test_error true ] db_wf_empty).
  cbn [guarded]. split; [exact I|]. split; [exact I|]. split; [|exact I].
  cbn [keeps_queues]. intros _ _ _. exists (mkMeta "1" 0 0). vm_compute. reflexivity.
Defined.

(** C4 fails as stated: a failure reported with retry for a job that is
    queued, not in progress, puts it in its queue a second time; so does
    enqueueing again a job that was cancelled while queued. *)
Lemma queued_twice_counterexample :
  queues (run [Enqueue true job1_vm; ReportFailure true "1" test_error true] fresh)
    PUBLIC_VM = [job1_vm; job1_vm]
  ∧ queues (run [Enqueue true job1_vm; Cancel true "1"; Enqueue true job1_vm] fresh)
      PUBLIC_VM = [job1_vm; job1_vm].
Proof. split; vm_compute; reflexivity. Qed.

(** * Further properties of the broker *)

(** ** Cancellation and late reports *)

(** After a cancel that reached the database the id reads as not found and
    the database holds no job and no result for it; whatever is reported for
    the id afterwards, with or without retry, is dropped: the promise
    fulfils and the broker and the database are exactly as the cancel left
    them. *)
Theorem cancel_then_reports_dropped (b : ProvingBroker) (id : V2ProvingJobId) :
  let b' := (removeAndCancelProvingJob true id b).1 in
  getProvingJobStatus id b' = StatusNotFound
  ∧ db_jobs (database b') !! id = None
  ∧ db_results (database b') !! id = None
  ∧ (∀ dbOk value, reportProvingJobSuccess dbOk id value b' = (b', Fulfilled tt))
  ∧ (∀ dbOk err retry, reportProvingJobError dbOk id err retry b' = (b', Fulfilled tt)).
Proof.
  cbn zeta. unfold getProvingJobStatus, reportProvingJobSuccess, reportProvingJobError.
  cbn [removeAndCancelProvingJob fst]. cbn [jobsCache resultsCache database
    with_retries with_inProgress with_resultsCache with_jobsCache with_database
    Database.deleteProvingJobAndResult db_jobs db_results].
  rewrite !lookup_delete_eq. auto.
Qed.

(** ** Admission and status *)

(** Once [enqueueProvingJob] has fulfilled, the job's id no longer reads as
    not found, and the jobs cache holds the very record that was passed. *)
Theorem enqueued_job_is_found (dbOk : bool) (job : V2ProvingJob) (b : ProvingBroker) :
  (enqueueProvingJob dbOk job b).2 = Fulfilled tt →
  let b' := (enqueueProvingJob dbOk job b).1 in
  jobsCache b' !! job_id job = Some job
  ∧ getProvingJobStatus (job_id job) b' ≠ StatusNotFound.
Proof.
  unfold enqueueProvingJob.
  destruct (jobsCache b !! job_id job) as [existing|] eqn:Hjob.
  - case_decide as Heq; [|done]. subst existing. intros _. cbn zeta. cbn [fst].
    split; [done|]. unfold getProvingJobStatus. rewrite Hjob.
    destruct (resultsCache b !! job_id job) as [[v|e]|]; [done|done|].
    by destruct (JsMap.has (inProgress b) (job_id job)).
  - destruct dbOk; [|done]. intros _. cbn zeta. cbn [fst].
    match goal with |- context [jobsCache ?x !! _] => set (b' := x) end.
    assert (Hins : jobsCache b' !! job_id job = Some job) by apply lookup_insert_eq.
    split; [done|]. unfold getProvingJobStatus. rewrite Hins.
    destruct (resultsCache b' !! job_id job) as [[v|e]|]; [done|done|].
    by destruct (JsMap.has (inProgress b') (job_id job)).
Qed.

Lemma enqueued_job_is_found_witness :
  getProvingJobStatus "1" (enqueueProvingJob true job1_vm fresh).1 ≠ StatusNotFound.
Proof.
  apply (enqueued_job_is_found true job1_vm fresh). reflexivity.
Defined.

(** ** Reports the database refuses *)

(** When the database write of a report fails the promise rejects with the
    database's error and no result is recorded, yet the lease has already
    been dropped: queues, results, retry counts and database are as before,
    the id is no longer in progress, and a job that had no result reads as
    in queue whether or not a queue holds it.  This is so for a success
    report and for every error report that is not retried, be it that no
    retry was asked for or that the retry limit is reached. *)
Theorem refused_report_drops_lease (b : ProvingBroker) (id : V2ProvingJobId)
    (item : V2ProvingJob) :
  jobsCache b !! id = Some item →
  (∀ value, let r := reportProvingJobSuccess false id value b in
     r.2 = Thrown DatabaseError
     ∧ JsMap.get (inProgress r.1) id = None
     ∧ queues r.1 = queues b ∧ jobsCache r.1 = jobsCache b
     ∧ resultsCache r.1 = resultsCache b ∧ retries r.1 = retries b
     ∧ database r.1 = database b
     ∧ (resultsCache b !! id = None → getProvingJobStatus id r.1 = StatusInQueue))
  ∧ (∀ err retry, let r := reportProvingJobError false id err retry b in
     retry && (default 0 (retries b !! id) + 1 <? maxRetries b) = false →
     r.2 = Thrown DatabaseError
     ∧ JsMap.get (inProgress r.1) id = None
     ∧ queues r.1 = queues b ∧ jobsCache r.1 = jobsCache b
     ∧ resultsCache r.1 = resultsCache b ∧ retries r.1 = retries b
     ∧ database r.1 = database b
     ∧ (resultsCache b !! id = None → getProvingJobStatus id r.1 = StatusInQueue)).
Proof.
  intros Hitem.
  assert (Hgone : ∀ b1, b1 = match JsMap.get (inProgress b) id with
                             | Some _ => with_inProgress b (JsMap.delete (inProgress b) id)
                             | None => b
                             end →
            JsMap.get (inProgress b1) id = None
            ∧ queues b1 = queues b ∧ jobsCache b1 = jobsCache b
            ∧ resultsCache b1 = resultsCache b ∧ retries b1 = retries b
            ∧ database b1 = database b
            ∧ (resultsCache b !! id = None → getProvingJobStatus id b1 = StatusInQueue)).
  { intros b1 ->. destruct (JsMap.get (inProgress b) id) eqn:Hget.
    - simpl. rewrite JsMapFacts.get_delete_eq. repeat split; try done.
      intros Hres. unfold getProvingJobStatus, JsMap.has. simpl.
      by rewrite Hres, Hitem, JsMapFacts.get_delete_eq.
    - repeat split; try done.
      intros Hres. unfold getProvingJobStatus, JsMap.has.
      by rewrite Hres, Hitem, Hget. }
  split.
  - intros value. cbn zeta. unfold reportProvingJobSuccess. rewrite Hitem.
    cbn [fst snd]. split; [done|]. by apply Hgone.
  - intros err retry. cbn zeta. intros Hfinal.
    unfold reportProvingJobError. rewrite Hitem.
    assert (Hmax : maxRetries (match JsMap.get (inProgress b) id with
                               | Some _ => with_inProgress b (JsMap.delete (inProgress b) id)
                               | None => b
                               end) = maxRetries b) by (by case_match).
    rewrite Hmax, Hfinal. cbn [fst snd]. split; [done|]. by apply Hgone.
Qed.

Lemma refused_report_drops_lease_witness :
  let b := run [ Enqueue true job1_vm;
                 Acquire 0 all_classes; ReportFailure true "1" test_error true;
                 Acquire 1 all_classes; ReportFailure true "1" test_error true;
                 Acquire 2 all_classes ] fresh in
  let r := reportProvingJobError false "1" test_error true b in
  getProvingJobStatus "1" b = StatusInProgress
  ∧ r.2 = Thrown DatabaseError
  ∧ getProvingJobStatus "1" r.1 = StatusInQueue
  ∧ queued r.1 = [].
Proof.
  split; [vm_compute; reflexivity|].
  destruct (proj2 (refused_report_drops_lease
              (run [ Enqueue true job1_vm;
                     Acquire 0 all_classes; ReportFailure true "1" test_error true;
                     Acquire 1 all_classes; ReportFailure true "1" test_error true;
                     Acquire 2 all_classes ] fresh) "1" job1_vm
              ltac:(vm_compute; reflexivity)) test_error true
              ltac:(vm_compute; reflexivity))
    as (Hthrown & _ & _ & _ & _ & _ & _ & Hstatus).
  split; [exact Hthrown|]. split; [|vm_compute; reflexivity].
  apply Hstatus. vm_compute. reflexivity.
Defined.

(** ** What a dispatch changes *)

Lemma getProvingJob_frame now filter b :
  let b' := (getProvingJob now filter b).1 in
  jobsCache b' = jobsCache b ∧ resultsCache b' = resultsCache b
  ∧ retries b' = retries b ∧ database b' = database b
  ∧ maxRetries b' = maxRetries b
  ∧ proofRequestTimeoutMs b' = proofRequestTimeoutMs b.
Proof.
  cbn zeta. unfold getProvingJob.
  destruct (getProvingJob_loop now (allowedProofs filter) b) as [b' [item|]] eqn:Hloop.
  - by apply getProvingJob_loop_Some in Hloop as (pre & t & post & q & _ & _ & _ & ->).
  - by apply getProvingJob_loop_None in Hloop as [-> _].
Qed.



(** ** Heartbeats *)

(** A progress report for a job in progress gives no new job and changes
    nothing but the time of the lease's last update: the start time, the
    place of the lease in the table, the other leases, the queues, the caches
    and the database stay; and while the job is indexed, a sweep less than
    the timeout later keeps the lease. *)
Theorem heartbeat_extends_lease (b : ProvingBroker) (now : Z)
    (id : V2ProvingJobId) (metadata : InProgressMetadata)
    (filter : option ProvingJobFilter) :
  NoDup (JsMap.keys (inProgress b)) →
  JsMap.get (inProgress b) id = Some metadata →
  let r := reportProvingJobProgress now id filter b in
  let renewed := {| meta_id := meta_id metadata; startedAt := startedAt metadata;
                    lastUpdatedAt := now |} in
  r.2 = None
  ∧ JsMap.get (inProgress r.1) id = Some renewed
  ∧ (∀ id', id' ≠ id → JsMap.get (inProgress r.1) id' = JsMap.get (inProgress b) id')
  ∧ JsMap.keys (inProgress r.1) = JsMap.keys (inProgress b)
  ∧ queues r.1 = queues b ∧ jobsCache r.1 = jobsCache b
  ∧ resultsCache r.1 = resultsCache b ∧ retries r.1 = retries b
  ∧ database r.1 = database b
  ∧ (∀ later, is_Some (jobsCache b !! id) →
       later - now < proofRequestTimeoutMs b →
       JsMap.get (inProgress (timeoutCheck later r.1)) id = Some renewed).
Proof.
  intros Hnd Hget. cbn zeta. unfold reportProvingJobProgress. rewrite Hget. cbn [fst snd].
  set (renewed := {| meta_id := meta_id metadata; startedAt := startedAt metadata;
                     lastUpdatedAt := now |}).
  assert (Hkeys : JsMap.keys (JsMap.set (inProgress b) id renewed)
                  = JsMap.keys (inProgress b)).
  { destruct (JsMapFacts.keys_set (inProgress b) id renewed) as [Hk|[Hk _]]; [done|].
    destruct Hk. apply JsMapFacts.elem_keys_get. rewrite Hget. eauto. }
  split; [done|]. split; [apply JsMapFacts.get_set_eq|].
  split; [intros id' Hne; by apply JsMapFacts.get_set_ne|].
  split; [exact Hkeys|]. repeat (split; [done|]).
  intros later [item Hitem] Hlt.
  set (b1 := with_inProgress b (JsMap.set (inProgress b) id renewed)).
  assert (Hnd1 : NoDup (JsMap.keys (inProgress b1))) by (simpl; by rewrite Hkeys).
  destruct (timeoutCheck_fold later (inProgress b1) b1) as (_ & _ & Hkept & _).
  fold (timeoutCheck later b1) in Hkept.
  assert (Hin : JsMap.get (inProgress b1) id = Some renewed)
    by (simpl; apply JsMapFacts.get_set_eq).
  rewrite Hkept; [exact Hin|].
  apply Forall_forall. intros [id' m'] He Heq. simpl in Heq. subst id'.
  apply (JsMapFacts.get_elem_NoDup _ _ _ Hnd1) in He.
  assert (m' = renewed) as -> by congruence.
  unfold reclaim, lease_expired. cbn [fst snd]. simpl. rewrite Hitem.
  destruct (Z.geb_spec (later - now) (proofRequestTimeoutMs b)); [lia|done].
Qed.

Lemma heartbeat_extends_lease_witness :
  let b := run [Enqueue true job1_vm; Acquire 0 all_classes] fresh in
  JsMap.get (inProgress (timeoutCheck 50000
              (reportProvingJobProgress 25000 "1" None b).1)) "1"
  = Some {| meta_id := "1"; startedAt := 0; lastUpdatedAt := 25000 |}.
Proof.
  apply (heartbeat_extends_lease
           (run [Enqueue true job1_vm; Acquire 0 all_classes] fresh)
           25000 "1" (mkMeta "1" 0 0) None).
  - vm_compute. apply NoDup_singleton.
  - vm_compute. reflexivity.
  - exists job1_vm. vm_compute. reflexivity.
  - vm_compute. reflexivity.
Defined.

(** ** Invariants the broker keeps *)

Lemma Forall_delete_lease (P : V2ProvingJobId * InProgressMetadata → Prop) m k :
  Forall P m → Forall P (JsMap.delete m k).
Proof.
  rewrite JsMapFacts.delete_filter, !Forall_forall.
  intros Hm x [_ Hx]%list_elem_of_filter. by apply Hm.
Qed.

Lemma timeoutCheck_leases_Forall (P : V2ProvingJobId * InProgressMetadata → Prop)
    now b :
  Forall P (inProgress b) → Forall P (inProgress (timeoutCheck now b)).
Proof.
  unfold timeoutCheck. generalize (inProgress b) at 2. intros entries.
  revert b. induction entries as [|e entries IH]; intros b Hall; simpl; [done|].
  apply IH. destruct (timeoutCheck_entry_effect now b e) as (_ & _ & _ & _ & _ & _ & -> & _).
  case_match; [|done]. by apply Forall_delete_lease.
Qed.

Lemma Forall_set_lease (P : V2ProvingJobId * InProgressMetadata → Prop) m k v :
  P (k, v) → Forall P m → Forall P (JsMap.set m k v).
Proof.
  intros Hkv. induction 1 as [|[k' v'] m Hx Hm IH]; simpl.
  - by constructor.
  - case_decide; subst; by constructor.
Qed.

Definition leases_keyed (b : ProvingBroker) : Prop :=
  Forall (fun e => meta_id e.2 = e.1) (inProgress b).

Lemma leases_keyed_dispatch now filter b :
  leases_keyed b → leases_keyed (getProvingJob now filter b).1.
Proof.
  intros Hb. unfold getProvingJob.
  destruct (getProvingJob_loop now (allowedProofs filter) b) as [b' [item|]] eqn:Hloop.
  - apply getProvingJob_loop_Some in Hloop as (pre & t & post & q & _ & _ & _ & ->).
    unfold leases_keyed. simpl. by apply Forall_set_lease.
  - by apply getProvingJob_loop_None in Hloop as [-> _].
Qed.

Lemma leases_keyed_call c b : leases_keyed b → leases_keyed (call c b).
Proof.
  intros Hb.
  destruct c as [dbOk job|dbOk id|id|now filter|now id filter
                 |dbOk id value|dbOk id err retry|now]; simpl.
  - unfold enqueueProvingJob. destruct (jobsCache b !! job_id job);
      [by case_decide | by destruct dbOk].
  - destruct dbOk; [|done]. unfold leases_keyed. simpl. by apply Forall_delete_lease.
  - done.
  - by apply leases_keyed_dispatch.
  - unfold reportProvingJobProgress.
    destruct (JsMap.get (inProgress b) id) as [metadata|] eqn:Hget; simpl.
    + unfold leases_keyed. simpl. apply Forall_set_lease; [|done]. simpl.
      apply JsMapFacts.get_Some_elem in Hget.
      unfold leases_keyed in Hb. rewrite Forall_forall in Hb. exact (Hb _ Hget).
    + destruct filter; [by apply leases_keyed_dispatch | done].
  - unfold reportProvingJobSuccess. destruct (jobsCache b !! id); [|done].
    destruct (JsMap.get (inProgress b) id); destruct dbOk; cbn [fst];
      unfold leases_keyed; simpl; try done; by apply Forall_delete_lease.
  - unfold reportProvingJobError. destruct (jobsCache b !! id); [|done].
    destruct (JsMap.get (inProgress b) id); cbn [maxRetries with_inProgress];
      destruct (retry && _); try destruct dbOk; cbn [fst];
      unfold leases_keyed; simpl; try done; by apply Forall_delete_lease.
  - by apply timeoutCheck_leases_Forall.
Qed.

Lemma start_frame b :
  inProgress (start b) = inProgress b ∧ retries (start b) = retries b
  ∧ database (start b) = database b ∧ maxRetries (start b) = maxRetries b
  ∧ proofRequestTimeoutMs (start b) = proofRequestTimeoutMs b.
Proof.
  unfold start. generalize (Database.allProvingJobs (database b)). intros entries.
  revert b. induction entries as [|e entries IH]; intros b; simpl; [done|].
  destruct (IH (restore b e)) as (-> & -> & -> & -> & ->).
  by destruct e as [item [r|]].
Qed.

(** In every reachable broker a recorded result belongs to an indexed job,
    a job is indexed under its own id, the in-progress table has one entry
    per id and each entry carries the id it is filed under, and a queue
    holds jobs of its own proof type only. *)
Theorem reachable_consistent (b : ProvingBroker) :
  reachable b →
  (∀ id r, resultsCache b !! id = Some r → is_Some (jobsCache b !! id))
  ∧ (∀ id job, jobsCache b !! id = Some job → job_id job = id)
  ∧ NoDup (JsMap.keys (inProgress b))
  ∧ (∀ id metadata, JsMap.get (inProgress b) id = Some metadata →
       meta_id metadata = id)
  ∧ (∀ t job, job ∈ queues b t → job_type job = t).
Proof.
  intros Hb. pose proof (reachable_inv b Hb) as [H1 H2 H3 H4].
  repeat split; try done.
  - intros id metadata Hget%JsMapFacts.get_Some_elem.
    assert (Hk : leases_keyed b).
    { clear -Hb. induction Hb using reachable_ind.
      - unfold leases_keyed. destruct (start_frame (newProvingBroker db cfg)) as (-> & _).
        constructor.
      - by apply leases_keyed_call. }
    unfold leases_keyed in Hk. rewrite Forall_forall in Hk. exact (Hk _ Hget).
  - intros t job Hin. destruct (H4 t) as [_ Ht]. rewrite Forall_forall in Ht.
    by apply Ht.
Qed.

Lemma reachable_consistent_witness :
  is_Some (jobsCache settled_once !! "1"%string).
Proof.
  apply (proj1 (reachable_consistent settled_once settled_once_reachable)
           "1"%string (ResultValue "first")).
  vm_compute. reflexivity.
Defined.

(** ** The retry count *)

Lemma call_config c b :
  maxRetries (call c b) = maxRetries b
  ∧ proofRequestTimeoutMs (call c b) = proofRequestTimeoutMs b.
Proof.
  destruct c as [dbOk job|dbOk id|id|now filter|now id filter
                 |dbOk id value|dbOk id err retry|now]; simpl.
  - unfold enqueueProvingJob. destruct (jobsCache b !! job_id job);
      [by case_decide | by destruct dbOk].
  - by destruct dbOk.
  - done.
  - by destruct (getProvingJob_frame now filter b) as (_ & _ & _ & _ & -> & ->).
  - unfold reportProvingJobProgress.
    destruct (JsMap.get (inProgress b) id); [done|]. destruct filter; [|done].
    by destruct (getProvingJob_frame now p b) as (_ & _ & _ & _ & -> & ->).
  - unfold reportProvingJobSuccess. destruct (jobsCache b !! id); [|done].
    by destruct (JsMap.get (inProgress b) id); destruct dbOk.
  - unfold reportProvingJobError. destruct (jobsCache b !! id); [|done].
    by destruct (JsMap.get (inProgress b) id); cbn [maxRetries with_inProgress];
      destruct (retry && _); try destruct dbOk.
  - destruct (timeoutCheck_fold now (inProgress b) b)
      as ((_ & Ht & _ & _ & _ & Hm) & _).
    fold (timeoutCheck now b) in Ht, Hm. by rewrite Ht, Hm.
Qed.

Lemma call_retries c b id v :
  retries (call c b) !! id = Some v →
  retries b !! id = Some v
  ∨ (v = default 0 (retries b !! id) + 1 ∧ v < maxRetries b).
Proof.
  destruct c as [dbOk job|dbOk id0|id0|now filter|now id0 filter
                 |dbOk id0 value|dbOk id0 err retry|now]; simpl.
  - unfold enqueueProvingJob. destruct (jobsCache b !! job_id job);
      [case_decide | destruct dbOk]; auto.
  - destruct dbOk; [|auto]. simpl. destruct (decide (id0 = id)) as [->|Hne].
    + by rewrite lookup_delete_eq.
    + rewrite lookup_delete_ne by done. auto.
  - auto.
  - destruct (getProvingJob_frame now filter b) as (_ & _ & -> & _). auto.
  - unfold reportProvingJobProgress.
    destruct (JsMap.get (inProgress b) id0); [auto|]. destruct filter; [|auto].
    destruct (getProvingJob_frame now p b) as (_ & _ & -> & _). auto.
  - unfold reportProvingJobSuccess. destruct (jobsCache b !! id0); [|auto].
    destruct (JsMap.get (inProgress b) id0); destruct dbOk; auto.
  - unfold reportProvingJobError. destruct (jobsCache b !! id0) as [item|]; [|auto].
    destruct (JsMap.get (inProgress b) id0); cbn [maxRetries with_inProgress];
      (destruct (retry && (default 0 (retries b !! id0) + 1 <? maxRetries b)) eqn:Hc;
       [ apply andb_true_iff in Hc as [_ Hlt%Z.ltb_lt]; simpl;
         destruct (decide (id0 = id)) as [->|Hne];
         [ rewrite lookup_insert_eq; intros [= <-]; auto
         | rewrite lookup_insert_ne by done; auto ]
       | destruct dbOk; simpl; auto ]).
  - destruct (timeoutCheck_frame now b) as (_ & _ & -> & _). auto.
Qed.

(** The retry limit and the job timeout are those the constructor was given
    (3 and 30000 ms when absent) for as long as the broker runs, and a retry
    count, once there is one, is at least 1 and below the retry limit. *)
Theorem retries_below_limit (db : ProvingBrokerDatabase)
    (cfg : ProofRequestBrokerConfig) (calls : list BrokerCall) :
  let b := run calls (start (newProvingBroker db cfg)) in
  maxRetries b = default 3 (cfg_maxRetries cfg)
  ∧ proofRequestTimeoutMs b = default 30000 (jobTimeoutMs cfg)
  ∧ ∀ id v, retries b !! id = Some v → 1 ≤ v < maxRetries b.
Proof.
  cbn zeta. induction calls as [|c calls IH] using rev_ind.
  - simpl. destruct (start_frame (newProvingBroker db cfg)) as (_ & -> & _ & -> & ->).
    split; [done|]. split; [done|]. intros id v Hv.
    change ((∅ : gmap V2ProvingJobId Z) !! id = Some v) in Hv.
    by rewrite lookup_empty in Hv.
  - rewrite run_snoc. destruct IH as (Hm & Ht & Hr).
    destruct (call_config c (run calls (start (newProvingBroker db cfg)))) as [-> ->].
    split; [done|]. split; [done|].
    intros id v Hv.
    destruct (call_retries c _ id v Hv) as [Hold|[-> Hlt]]; [by apply (Hr id)|]. clear Hv.
    split; [|done].
    destruct (retries (run calls (start (newProvingBroker db cfg))) !! id) as [v'|] eqn:Hv;
      simpl; [|lia]. apply Hr in Hv. lia.
Qed.

Lemma retries_below_limit_witness :
  let b := run [ Enqueue true job1_vm; Acquire 0 all_classes;
                 ReportFailure true "1" test_error true ] fresh in
  1 ≤ 1 < maxRetries b.
Proof.
  apply (proj2 (proj2 (retries_below_limit Database.empty defaultConfig
           [ Enqueue true job1_vm; Acquire 0 all_classes;
             ReportFailure true "1" test_error true ])) "1"%string 1).
  vm_compute. reflexivity.
Defined.

(** ** The comparators as orders *)

(** Both comparators answer -1, 0 or 1 and swapping the arguments negates
    the answer, whatever the priority array; [provingJobComparator] answers 0
    exactly on equal block numbers, and [proofTypeComparator] answers 0
    exactly on equal proof types, every proof type having a place of its own
    in the priority array. *)
Theorem comparators_consistent :
  (∀ (order : list ProvingRequestType) a c,
     proofTypeComparatorOver order a c = - proofTypeComparatorOver order c a
     ∧ -1 ≤ proofTypeComparatorOver order a c ≤ 1)
  ∧ (∀ a c, proofTypeComparator a c = 0 ↔ a = c)
  ∧ (∀ a c, provingJobComparator a c = - provingJobComparator c a
            ∧ -1 ≤ provingJobComparator a c ≤ 1)
  ∧ (∀ a c, provingJobComparator a c = 0 ↔ blockNumber a = blockNumber c).
Proof.
  split; [|split; [|split]].
  - intros order a c. unfold proofTypeComparatorOver.
    destruct (indexOf_bounds order a) as [Ha _].
    destruct (indexOf_bounds order c) as [Hc _].
    destruct (Z.eqb_spec (indexOf order a) (indexOf order c));
      destruct (Z.eqb_spec (indexOf order c) (indexOf order a));
      destruct (Z.eqb_spec (indexOf order a) (-1));
      destruct (Z.eqb_spec (indexOf order c) (-1));
      destruct (Z.ltb_spec (indexOf order a) (indexOf order c));
      destruct (Z.ltb_spec (indexOf order c) (indexOf order a)); lia.
  - intros a c. split; [|intros ->; by destruct c].
    destruct a, c; vm_compute; congruence.
  - intros a c. unfold provingJobComparator.
    destruct (Z.ltb_spec (blockNumber a) (blockNumber c));
      destruct (Z.gtb_spec (blockNumber a) (blockNumber c));
      destruct (Z.ltb_spec (blockNumber c) (blockNumber a));
      destruct (Z.gtb_spec (blockNumber c) (blockNumber a)); lia.
  - intros a c. unfold provingJobComparator.
    destruct (Z.ltb_spec (blockNumber a) (blockNumber c));
      destruct (Z.gtb_spec (blockNumber a) (blockNumber c)); lia.
Qed.

(** ** Failure reports in a row *)

Definition fail_again (id : V2ProvingJobId) (err : JsError) (b : ProvingBroker)
    : ProvingBroker :=
  (reportProvingJobError true id err true b).1.

Lemma fail_again_retried id err b item :
  jobsCache b !! id = Some item →
  default 0 (retries b !! id) + 1 < maxRetries b →
  jobsCache (fail_again id err b) = jobsCache b
  ∧ maxRetries (fail_again id err b) = maxRetries b
  ∧ resultsCache (fail_again id err b) = resultsCache b
  ∧ database (fail_again id err b) = database b
  ∧ retries (fail_again id err b) !! id = Some (default 0 (retries b !! id) + 1).
Proof.
  intros Hitem Hlt%Z.ltb_lt. unfold fail_again, reportProvingJobError. rewrite Hitem.
  destruct (JsMap.get (inProgress b) id); cbn [maxRetries with_inProgress];
    rewrite Hlt; simpl; by rewrite lookup_insert_eq.
Qed.

Lemma fail_again_final id err b item :
  jobsCache b !! id = Some item →
  ¬ default 0 (retries b !! id) + 1 < maxRetries b →
  resultsCache (fail_again id err b) !! id = Some (ResultError (String_of_error err))
  ∧ db_results (database (fail_again id err b)) !! id
    = Some (ResultError (String_of_error err)).
Proof.
  intros Hitem Hge%Z.ltb_nlt. unfold fail_again, reportProvingJobError. rewrite Hitem.
  destruct (JsMap.get (inProgress b) id); cbn [maxRetries with_inProgress];
    rewrite Hge; simpl; by rewrite !lookup_insert_eq.
Qed.

(** For an indexed job with [attempts] retries so far, failure reports with
    retry leave the recorded results and the database alone, each counting
    one more retry, as long as fewer than [maxRetries - attempts] of them have
    been made; the report after that, the first one if the limit is already
    reached, records the error in the results cache and in the database.
    Dispatches in between are not needed for this. *)
Theorem failures_until_rejected (b : ProvingBroker) (id : V2ProvingJobId)
    (err : JsError) (item : V2ProvingJob) :
  jobsCache b !! id = Some item →
  let attempts := default 0 (retries b !! id) in
  let n := Z.to_nat (maxRetries b - attempts - 1) in
  (∀ m, (m ≤ n)%nat →
     resultsCache (Nat.iter m (fail_again id err) b) = resultsCache b
     ∧ database (Nat.iter m (fail_again id err) b) = database b
     ∧ default 0 (retries (Nat.iter m (fail_again id err) b) !! id)
       = attempts + Z.of_nat m)
  ∧ resultsCache (Nat.iter (S n) (fail_again id err) b) !! id
    = Some (ResultError (String_of_error err))
  ∧ db_results (database (Nat.iter (S n) (fail_again id err) b)) !! id
    = Some (ResultError (String_of_error err)).
Proof.
  intros Hitem attempts n.
  assert (Hstep : ∀ m, (m ≤ n)%nat →
    jobsCache (Nat.iter m (fail_again id err) b) = jobsCache b
    ∧ maxRetries (Nat.iter m (fail_again id err) b) = maxRetries b
    ∧ resultsCache (Nat.iter m (fail_again id err) b) = resultsCache b
    ∧ database (Nat.iter m (fail_again id err) b) = database b
    ∧ default 0 (retries (Nat.iter m (fail_again id err) b) !! id)
      = attempts + Z.of_nat m).
  { induction m as [|m IH]; intros Hm.
    - simpl. repeat split; try done. subst attempts. lia.
    - destruct IH as (Hj & Hmax & Hr & Hd & Hc); [lia|].
      change (Nat.iter (S m) (fail_again id err) b)
        with (fail_again id err (Nat.iter m (fail_again id err) b)).
      set (b1 := Nat.iter m (fail_again id err) b) in *.
      destruct (fail_again_retried id err b1 item) as (Hj' & Hmax' & Hr' & Hd' & Hc').
      + by rewrite Hj.
      + rewrite Hc, Hmax. subst n. lia.
      + rewrite Hj', Hmax', Hr', Hd', Hc'. repeat split; try done.
        simpl. rewrite Hc. lia. }
  split; [intros m Hm; destruct (Hstep m Hm) as (_ & _ & ? & ? & ?); by repeat split|].
  destruct (Hstep n) as (Hj & Hmax & _ & _ & Hc); [lia|].
  change (Nat.iter (S n) (fail_again id err) b)
    with (fail_again id err (Nat.iter n (fail_again id err) b)).
  apply fail_again_final with item; [by rewrite Hj|].
  rewrite Hc, Hmax. subst n. lia.
Qed.

Lemma failures_until_rejected_witness :
  let b := run [Enqueue true job1_vm] fresh in
  resultsCache (Nat.iter 3 (fail_again "1" test_error) b) !! "1"%string
  = Some (ResultError "Error: test error").
Proof.
  apply (failures_until_rejected (run [Enqueue true job1_vm] fresh) "1" test_error job1_vm).
  vm_compute. reflexivity.
Defined.

(** ** Sweeping twice *)

Lemma filter_ext_elem {A} (P Q : A → Prop) `{!∀ x, Decision (P x)}
    `{!∀ x, Decision (Q x)} (l : list A) :
  (∀ x, x ∈ l → P x ↔ Q x) → filter P l = filter Q l.
Proof.
  induction l as [|a l IH]; intros Hext; [done|].
  rewrite !filter_cons.
  rewrite IH by (intros x Hx; apply Hext; by right).
  destruct (decide (P a)) as [Hp|Hp], (decide (Q a)) as [Hq|Hq]; try done;
    destruct (Hext a); try (by left); tauto.
Qed.

Lemma timeoutCheck_entry_kept now b e :
  reclaim (jobsCache b) (proofRequestTimeoutMs b) now e = false →
  timeoutCheck_entry now b e = b.
Proof.
  destruct e as [id m]. unfold reclaim, timeoutCheck_entry, lease_expired. cbn [fst snd].
  destruct (jobsCache b !! id); [|done]. by intros ->.
Qed.

Lemma timeoutCheck_fold_kept now entries b :
  Forall (fun e => reclaim (jobsCache b) (proofRequestTimeoutMs b) now e = false)
    entries →
  fold_left (timeoutCheck_entry now) entries b = b.
Proof.
  induction 1 as [|e entries He Hes IH]; simpl; [done|].
  by rewrite timeoutCheck_entry_kept.
Qed.

Lemma timeoutCheck_fold_leases now entries b :
  inProgress (fold_left (timeoutCheck_entry now) entries b)
  = filter (fun x => Forall (fun e => e.1 = x.1 →
                       reclaim (jobsCache b) (proofRequestTimeoutMs b) now e = false)
                     entries)
      (inProgress b).
Proof.
  revert b. induction entries as [|e entries IH]; intros b; simpl.
  - symmetry. induction (inProgress b) as [|x l IHl]; [done|].
    rewrite filter_cons_True by constructor. by rewrite IHl.
  - rewrite IH.
    destruct (timeoutCheck_entry_effect now b e) as (-> & -> & _ & _ & _ & _ & -> & _).
    destruct (reclaim (jobsCache b) (proofRequestTimeoutMs b) now e) eqn:He.
    + rewrite JsMapFacts.delete_filter, list_filter_filter.
      apply list_filter_iff. intros x. rewrite Forall_cons. split.
      * intros [Hes Hne]. split; [|done]. intros Heq. by destruct Hne.
      * intros [Hhd Hes]. split; [done|]. intros Heq. symmetry in Heq.
        apply Hhd in Heq. congruence.
    + apply list_filter_iff. intros x. rewrite Forall_cons. tauto.
Qed.

(** A sweep keeps, in their order, exactly the entries of indexed jobs whose
    last update is less than the timeout old; sweeping again at the same time
    changes nothing. *)
Theorem sweep_idempotent (b : ProvingBroker) (now : Z) :
  NoDup (JsMap.keys (inProgress b)) →
  inProgress (timeoutCheck now b)
  = filter (fun e => is_Some (jobsCache b !! e.1)
                     ∧ now - lastUpdatedAt e.2 < proofRequestTimeoutMs b)
      (inProgress b)
  ∧ timeoutCheck now (timeoutCheck now b) = timeoutCheck now b.
Proof.
  intros Hnd.
  assert (Hleases : inProgress (timeoutCheck now b)
    = filter (fun e => reclaim (jobsCache b) (proofRequestTimeoutMs b) now e = false)
        (inProgress b)).
  { unfold timeoutCheck. rewrite timeoutCheck_fold_leases.
    apply filter_ext_elem. intros [id m] Hx. rewrite Forall_forall. split.
    - intros Hall. by apply (Hall (id, m)).
    - intros Hkeep [id' m'] He Heq. simpl in Heq. subst id'.
      apply JsMapFacts.get_elem_NoDup in Hx, He; try done. congruence. }
  split.
  - rewrite Hleases. apply list_filter_iff. intros [id m].
    unfold reclaim, lease_expired. cbn [fst snd].
    destruct (jobsCache b !! id) as [item|].
    + destruct (Z.geb_spec (now - lastUpdatedAt m) (proofRequestTimeoutMs b)).
      * split; [done | intros [_ ?]; lia].
      * split; [intros _; split; [eauto | lia] | done].
    + split; [done | by intros [[? ?] _]].
  - unfold timeoutCheck at 1. apply timeoutCheck_fold_kept.
    destruct (timeoutCheck_fold now (inProgress b) b) as ((Hj & Ht & _) & _).
    fold (timeoutCheck now b) in Hj, Ht. rewrite Hj, Ht, Hleases.
    apply Forall_forall. by intros e [He _]%list_elem_of_filter.
Qed.

Lemma sweep_idempotent_witness :
  let b := run [Enqueue true job1_vm; Acquire 0 all_classes] fresh in
  timeoutCheck 30000 (timeoutCheck 30000 b) = timeoutCheck 30000 b.
Proof.
  apply (sweep_idempotent (run [Enqueue true job1_vm; Acquire 0 all_classes] fresh) 30000).
  vm_compute. apply NoDup_singleton.
Defined.

(** ** The caches and the database *)

(** A database holds results of stored jobs only. *)
Definition db_closed (db : ProvingBrokerDatabase) : Prop :=
  ∀ id r, db_results db !! id = Some r → is_Some (db_jobs db !! id).

Definition mirrors (b : ProvingBroker) : Prop :=
  jobsCache b = db_jobs (database b) ∧ resultsCache b = db_results (database b).

Lemma elem_of_allProvingJobs db e :
  e ∈ Database.allProvingJobs db
  ↔ ∃ k, db_jobs db !! k = Some e.1 ∧ e.2 = db_results db !! job_id e.1.
Proof.
  unfold Database.allProvingJobs. rewrite list_elem_of_fmap. split.
  - intros ([k j] & -> & Hkj%elem_of_map_to_list). simpl. eauto.
  - intros (k & Hk & He). exists (k, e.1). split.
    + destruct e as [j r]. simpl in *. by rewrite He.
    + by apply elem_of_map_to_list.
Qed.

Lemma mirrors_start db cfg :
  db_wf db → db_closed db → mirrors (start (newProvingBroker db cfg)).
Proof.
  intros Hwf Hclosed.
  pose proof (allProvingJobs_NoDup db Hwf) as Hnd.
  destruct (restore_fold (Database.allProvingJobs db) (newProvingBroker db cfg) Hnd)
    as (A1 & A2 & R1 & R2 & (_ & _ & Hd) & _).
  change (fold_left restore (Database.allProvingJobs db) (newProvingBroker db cfg))
    with (start (newProvingBroker db cfg)) in A1, A2, R1, R2, Hd.
  assert (Hids : ∀ id, id ∈ entry_ids (Database.allProvingJobs db)
                       ↔ is_Some (db_jobs db !! id)).
  { intros id. unfold entry_ids. rewrite list_elem_of_fmap. split.
    - intros (e & -> & (k & Hk & _)%elem_of_allProvingJobs).
      rewrite <- (Hwf k _ Hk) in Hk at 1. eauto.
    - intros [j Hj]. exists (j, db_results db !! job_id j). split.
      + simpl. symmetry. by apply Hwf.
      + apply elem_of_allProvingJobs. exists id. by split. }
  unfold mirrors. rewrite Hd. simpl. split; apply map_eq; intros id.
  - destruct (db_jobs db !! id) as [j|] eqn:Hj.
    + assert (He : (j, db_results db !! job_id j) ∈ Database.allProvingJobs db)
        by (apply elem_of_allProvingJobs; exists id; by split).
      pose proof (A1 _ He) as Hjob. simpl in Hjob. by rewrite (Hwf id j Hj) in Hjob.
    + rewrite A2; [done|]. rewrite Hids, Hj. by intros [? ?].
  - destruct (db_jobs db !! id) as [j|] eqn:Hj.
    + assert (He : (j, db_results db !! job_id j) ∈ Database.allProvingJobs db)
        by (apply elem_of_allProvingJobs; exists id; by split).
      pose proof (R1 _ He) as Hres. simpl in Hres. rewrite (Hwf id j Hj) in Hres.
      rewrite Hres. by destruct (db_results db !! id).
    + rewrite R2 by (rewrite Hids, Hj; by intros [? ?]). simpl. rewrite lookup_empty.
      destruct (db_results db !! id) as [r|] eqn:Hr; [|done].
      apply Hclosed in Hr. rewrite Hj in Hr. by destruct Hr.
Qed.

Lemma mirrors_call c b : mirrors b → mirrors (call c b).
Proof.
  intros [Hj Hr].
  destruct c as [dbOk job|dbOk id|id|now filter|now id filter
                 |dbOk id value|dbOk id err retry|now]; simpl.
  - unfold enqueueProvingJob. destruct (jobsCache b !! job_id job);
      [by case_decide|]. destruct dbOk; [|done]. split; simpl; congruence.
  - destruct dbOk; [|done]. split; simpl; congruence.
  - done.
  - destruct (getProvingJob_frame now filter b) as (Hj' & Hr' & _ & Hd' & _).
    split; congruence.
  - unfold reportProvingJobProgress.
    destruct (JsMap.get (inProgress b) id); [done|]. destruct filter as [filter|]; [|done].
    destruct (getProvingJob_frame now filter b) as (Hj' & Hr' & _ & Hd' & _).
    split; congruence.
  - unfold reportProvingJobSuccess. destruct (jobsCache b !! id); [|done].
    destruct (JsMap.get (inProgress b) id); destruct dbOk; split; simpl; congruence.
  - unfold reportProvingJobError. destruct (jobsCache b !! id); [|done].
    destruct (JsMap.get (inProgress b) id); cbn [maxRetries with_inProgress];
      destruct (retry && _); try destruct dbOk; split; simpl; congruence.
  - destruct (timeoutCheck_frame now b) as (Hj' & Hr' & _ & Hd').
    split; congruence.
Qed.

(** Over a database that files each job under its id and holds results of
    stored jobs only, the jobs cache and the results cache of a started
    broker equal the jobs and the results of its database after every call,
    whether the database accepted or refused the call's write. *)
Theorem caches_mirror_database (db : ProvingBrokerDatabase)
    (cfg : ProofRequestBrokerConfig) (calls : list BrokerCall) :
  db_wf db → db_closed db →
  let b := run calls (start (newProvingBroker db cfg)) in
  jobsCache b = db_jobs (database b) ∧ resultsCache b = db_results (database b).
Proof.
  intros Hwf Hclosed. cbn zeta.
  induction calls as [|c calls IH] using rev_ind.
  - by apply mirrors_start.
  - rewrite run_snoc. by apply mirrors_call.
Qed.

Lemma seeded_closed : db_closed seeded.
Proof.
  intros id r. unfold seeded. simpl.
  rewrite !lookup_insert. repeat case_decide; subst; try done; eauto.
Qed.

Lemma caches_mirror_database_witness :
  let b := run [Cancel true "J1"; Acquire 0 all_classes; ReportSuccess false "J2" "p";
                ReportFailure true "J2" test_error false]
             (start (newProvingBroker seeded defaultConfig)) in
  resultsCache b = db_results (database b).
Proof.
  apply (caches_mirror_database seeded defaultConfig
           [Cancel true "J1"; Acquire 0 all_classes; ReportSuccess false "J2" "p";
            ReportFailure true "J2" test_error false] seeded_wf seeded_closed).
Defined.

(** ** Jobs in progress and the queues *)

Lemma guarded_queue_inv calls b :
  queue_inv b → guarded calls b → queue_inv (run calls b).
Proof.
  revert b. induction calls as [|c calls IH]; intros b Hb Hg; simpl; [done|].
  destruct Hg as [Hc Hg]. apply IH; [|done]. by apply queue_inv_call.
Qed.

(** In a run where no queued id is cancelled and retried failure reports
    are made for jobs in progress only, a job in progress is indexed and its
    id is in no queue; so a job that has been handed out is not handed out
    again before a timeout or a retried failure report queues it anew. *)
Theorem in_progress_not_queued (db : ProvingBrokerDatabase)
    (cfg : ProofRequestBrokerConfig) (calls : list BrokerCall) :
  db_wf db → guarded calls (start (newProvingBroker db cfg)) →
  let b := run calls (start (newProvingBroker db cfg)) in
  (∀ id, leased b id → (id ∉ queued_ids b) ∧ is_Some (jobsCache b !! id))
  ∧ (∀ now filter b' item, getProvingJob now filter b = (b', Some item) →
       leased b' (job_id item) ∧ (job_id item ∉ queued_ids b')
       ∧ ∀ now' filter' b'' item', getProvingJob now' filter' b' = (b'', Some item') →
           job_id item' ≠ job_id item).
Proof.
  intros Hwf Hg. cbn zeta.
  pose proof (guarded_queue_inv calls _ (queue_inv_start db cfg Hwf) Hg) as Hb.
  split.
  - intros id Hl. split; [by apply (leased_not_queued _ Hb) | by apply (leased_indexed _ Hb)].
  - intros now filter b' item Hget.
    pose proof (queue_inv_dispatch now filter _ Hb) as Hb'. rewrite Hget in Hb'.
    cbn [fst] in Hb'.
    assert (Hl : leased b' (job_id item)).
    { unfold getProvingJob in Hget.
      apply getProvingJob_loop_Some in Hget as (pre & t & post & q & _ & _ & _ & ->).
      unfold leased. simpl. rewrite JsMapFacts.get_set_eq. eauto. }
    split; [done|]. split; [by apply (leased_not_queued _ Hb')|].
    intros now' filter' b'' item' Hget' Heq.
    apply (leased_not_queued _ Hb' _ Hl). rewrite <- Heq.
    unfold getProvingJob in Hget'.
    apply getProvingJob_loop_Some in Hget' as (pre & t & post & q & _ & _ & Hq & _).
    apply list_elem_of_fmap. exists item'. split; [done|].
    apply elem_of_queued. exists t. rewrite Hq. left.
Qed.

Lemma in_progress_not_queued_witness :
  let b := run [Enqueue true job1_vm; Acquire 0 all_classes] fresh in
  ("1"%string ∉ queued_ids b) ∧ is_Some (jobsCache b !! "1"%string).
Proof.
  apply (proj1 (in_progress_not_queued Database.empty defaultConfig
           [Enqueue true job1_vm; Acquire 0 all_classes] db_wf_empty
           ltac:(simpl; auto))).
  exists (mkMeta "1" 0 0). vm_compute. reflexivity.
Defined.
